(** * Binary decision tree over axis-aligned integer regions

    A shallow embedding of [binary_decision_tree.cpp]: the classes
    [Interval], [Decision], [DecisionTreeNode] and [DecisionTree], the
    free function [BruteContains], and the properties of the build and
    query algorithms.

    Conventions of the embedding.
    - A C++ [int] is a [Z]. The one arithmetic operation of the program that
      can leave the 32-bit range, [right + 1], is written with its
      two's-complement wrap-around ([int_add]).
    - [vector<T>] is [list T]; [v[i]] outside the vector, a call through a
      null pointer and a failed [assert] all end the run: [Fault].
    - [DecisionTreeNode*] is [NodePtr]: [nullptr] or the node pointed to.
    - [BuildTree_] is recursive on a list that the degeneracy guard makes
      strictly shorter; the embedding takes a recursion budget and
      [OutOfFuel] marks its exhaustion, which is proved never to happen
      with a budget above the number of areas. *)

From Stdlib Require Import ZArith List Bool Lia Permutation Sorted.
From Stdlib Require String Ascii DecimalString.
Import String.StringSyntax.
Import ListNotations.
Bind Scope string_scope with String.string.
Open Scope Z_scope.

(** ** Outcomes of a run *)

Inductive result (A : Type) : Type :=
| Ok (a : A)
| Fault
| OutOfFuel.

Arguments Ok {A} a.
Arguments Fault {A}.
Arguments OutOfFuel {A}.

Definition bind {A B : Type} (m : result A) (k : A -> result B) : result B :=
  match m with
  | Ok a => k a
  | Fault => Fault
  | OutOfFuel => OutOfFuel
  end.

Notation "x <- m ;; k" := (bind m (fun x => k))
  (at level 61, m at next level, right associativity).
Notation "' p <- m ;; k" := (bind m (fun x => let 'p := x in k))
  (at level 61, p pattern, m at next level, right associativity).

(** [assert(c)] *)
Definition assert (c : bool) : result unit :=
  if c then Ok tt else Fault.

(** ** Machine integers *)

Definition INT_MIN : Z := - 2 ^ 31.
Definition INT_MAX : Z := 2 ^ 31 - 1.

Definition wrap_int (z : Z) : Z := (z + 2 ^ 31) mod 2 ^ 32 - 2 ^ 31.

Definition int_add (a b : Z) : Z := wrap_int (a + b).

(** [v[i]] for an [int] index. *)
Definition at_ {A : Type} (v : list A) (i : Z) : result A :=
  if i <? 0 then Fault
  else match nth_error v (Z.to_nat i) with
       | Some x => Ok x
       | None => Fault
       end.

(** [(int) v.size()] *)
Definition size {A : Type} (v : list A) : Z := Z.of_nat (length v).

(** ** class Interval *)

Record Interval : Type := mkInterval { left : Z; right : Z }.

Definition Contains (iv : Interval) (x : Z) : bool :=
  (left iv <=? x) && (x <=? right iv).

(** True if the interval is to the left of the point. *)
Definition ToTheLeft (iv : Interval) (x : Z) : bool := x >? right iv.

(** True if the interval is to the right of the point. *)
Definition ToTheRight (iv : Interval) (x : Z) : bool := x <? left iv.

Definition Area : Type := list Interval.

(** ** class Decision *)

Record Decision : Type := mkDecision { dimension_index : Z; ref_value : Z }.

(** The default constructor. *)
Definition Decision_default : Decision := mkDecision (-1) (-1).

Definition IsValid (d : Decision) : result bool :=
  _ <- assert (dimension_index d >=? -1) ;;
  Ok (dimension_index d >=? 0).

(** ** class DecisionTreeNode *)

Inductive NodePtr : Type :=
| nullptr
| Node (areas_to_check : list Area) (lchild rchild : NodePtr)
       (decision : Decision).

Definition is_null (p : NodePtr) : bool :=
  match p with nullptr => true | Node _ _ _ _ => false end.

(** The inner loop shared by [CurrentNodeContainsPoint] and [BruteContains]:
    [for (i = 0; i < point.size(); ++i) if (!area[i].Contains(point[i]))]
    entered at index [i] with the coordinates [point[i..]] still to visit. *)
Fixpoint area_contains_from (area : Area) (i : Z) (coords : list Z)
  : result bool :=
  match coords with
  | [] => Ok true
  | x :: coords' =>
      iv <- at_ area i ;;
      if negb (Contains iv x) then Ok false
      else area_contains_from area (i + 1) coords'
  end.

Definition area_contains_point (area : Area) (point : list Z) : result bool :=
  area_contains_from area 0 point.

Fixpoint CurrentNodeContainsPoint (areas_to_check : list Area)
  (point : list Z) : result bool :=
  match areas_to_check with
  | [] => Ok false
  | area :: rest =>
      current_area_contains_point <- area_contains_point area point ;;
      if current_area_contains_point then Ok true
      else CurrentNodeContainsPoint rest point
  end.

Fixpoint FindPoint (this : NodePtr) (point : list Z) : result bool :=
  match this with
  | nullptr => Fault
  | Node areas_to_check lchild rchild decision =>
      found <- CurrentNodeContainsPoint areas_to_check point ;;
      if found then Ok true
      else
        valid <- IsValid decision ;;
        if negb valid then
          _ <- assert (is_null lchild && is_null rchild) ;;
          Ok false
        else
          x <- at_ point (dimension_index decision) ;;
          if x <? ref_value decision then
            match lchild with
            | nullptr => Ok false
            | Node _ _ _ _ => FindPoint lchild point
            end
          else if x >? ref_value decision then
            match rchild with
            | nullptr => Ok false
            | Node _ _ _ _ => FindPoint rchild point
            end
          else Ok false
  end.

(** [size_t] sums of vector sizes cannot wrap: they count objects held in
    memory. *)
Fixpoint SumAreasToCheckSizes_node (this : NodePtr) : nat :=
  match this with
  | nullptr => 0%nat
  | Node areas_to_check lchild rchild _ =>
      (length areas_to_check
       + SumAreasToCheckSizes_node lchild
       + SumAreasToCheckSizes_node rchild)%nat
  end.

(** ** BruteContains *)

Fixpoint BruteContains (point : list Z) (areas : list Area) : result bool :=
  match areas with
  | [] => Ok false
  | area :: rest =>
      current_area_contains_point <- area_contains_point area point ;;
      if current_area_contains_point then Ok true
      else BruteContains point rest
  end.

(** ** class DecisionTree: the build *)

(** Whether [a[dimension_index]] exists, and its right bound. *)
Definition has_dim (dimension_index : Z) (a : Area) : bool :=
  match at_ a dimension_index with Ok _ => true | _ => false end.

Definition right_at (dimension_index : Z) (a : Area) : Z :=
  match at_ a dimension_index with Ok iv => right iv | _ => 0 end.

(** The comparator handed to the sort:
    [a[dimension_index].right < b[dimension_index].right]. *)
Definition less_right (dimension_index : Z) (a b : Area) : bool :=
  right_at dimension_index a <? right_at dimension_index b.

(** [std::sort] leaves the order of elements with equal keys unspecified.
    The program reads from the sorted vector only the key of its median
    element and counts taken over all of its elements, and neither depends
    on that order ([median_key_unique], [cut_through_perm]); an insertion
    sort stands for it. *)
Fixpoint insert_sorted {A : Type} (less : A -> A -> bool) (x : A)
  (v : list A) : list A :=
  match v with
  | [] => [x]
  | y :: v' => if less x y then x :: v else y :: insert_sorted less x v'
  end.

Definition sort {A : Type} (less : A -> A -> bool) (v : list A) : list A :=
  fold_right (insert_sorted less) [] v.

(** With two or more elements (the only case in which [BuildTree_] reaches
    the sort) the comparator is applied to every element. *)
Definition sort_by_right (dimension_index : Z) (all_areas : list Area)
  : result (list Area) :=
  _ <- assert (forallb (has_dim dimension_index) all_areas) ;;
  Ok (sort (less_right dimension_index) all_areas).

(** The tallies [cut_through_count, left_count, right_count]. *)
Fixpoint count_areas (decision : Decision) (all_areas : list Area)
  (counts : Z * Z * Z) : result (Z * Z * Z) :=
  match all_areas with
  | [] => Ok counts
  | area :: rest =>
      let '(cut_through_count, left_count, right_count) := counts in
      iv <- at_ area (dimension_index decision) ;;
      if Contains iv (ref_value decision) then
        count_areas decision rest (cut_through_count + 1, left_count, right_count)
      else if ToTheLeft iv (ref_value decision) then
        count_areas decision rest (cut_through_count, left_count + 1, right_count)
      else if ToTheRight iv (ref_value decision) then
        count_areas decision rest (cut_through_count, left_count, right_count + 1)
      else Fault
  end.

(** The candidate of one dimension: the sorted vector and the decision
    placed one past the right bound of its median element. *)
Definition candidate (dimension_index : Z) (all_areas : list Area)
  : result (list Area * Decision) :=
  all_areas <- sort_by_right dimension_index all_areas ;;
  let median_index := Z.quot (size all_areas - 1) 2 in
  median <- at_ all_areas median_index ;;
  iv <- at_ median dimension_index ;;
  Ok (all_areas, mkDecision dimension_index (int_add (right iv) 1)).

(** [for (dimension_index = 0; dimension_index < dimension_; ++dimension_index)]
    at the loop variable [index] with [remaining] iterations to go; the state is
    [(best_decision, best_cut_through_count, all_areas)]. *)
Fixpoint dimension_loop (remaining : nat) (index : Z)
  (st : Decision * Z * list Area) : result (Decision * Z * list Area) :=
  match remaining with
  | O => Ok st
  | S remaining' =>
      let '(best_decision, best_cut_through_count, all_areas) := st in
      '(all_areas, decision) <- candidate index all_areas ;;
      '(cut_through_count, _, _) <- count_areas decision all_areas (0, 0, 0) ;;
      let st' :=
        if (dimension_index best_decision =? -1)
           || (cut_through_count <? best_cut_through_count)
        then (decision, cut_through_count, all_areas)
        else (best_decision, best_cut_through_count, all_areas) in
      dimension_loop remaining' (index + 1) st'
  end.

(** The second loop over [areas_to_add]: the areas kept in the node, pushed
    left and pushed right, each in the order of [areas_to_add]. *)
Fixpoint split_areas (best_decision : Decision) (areas_to_add : list Area)
  : result (list Area * list Area * list Area) :=
  match areas_to_add with
  | [] => Ok ([], [], [])
  | area :: rest =>
      interval_for_decision <- at_ area (dimension_index best_decision) ;;
      '(areas_to_check, push_left_areas, push_right_areas) <-
        split_areas best_decision rest ;;
      if Contains interval_for_decision (ref_value best_decision) then
        Ok (area :: areas_to_check, push_left_areas, push_right_areas)
      else if ToTheLeft interval_for_decision (ref_value best_decision) then
        Ok (areas_to_check, area :: push_left_areas, push_right_areas)
      else if ToTheRight interval_for_decision (ref_value best_decision) then
        Ok (areas_to_check, push_left_areas, area :: push_right_areas)
      else Fault
  end.

Definition is_empty {A : Type} (v : list A) : bool :=
  match v with [] => true | _ => false end.

Fixpoint BuildTree_ (fuel : nat) (dimension_ : Z) (areas_to_add : list Area)
  : result NodePtr :=
  match fuel with
  | O => OutOfFuel
  | S fuel' =>
      _ <- assert (size areas_to_add >? 0) ;;
      (* If we only have one area, then check it in the node and that's it. *)
      if size areas_to_add =? 1 then
        Ok (Node areas_to_add nullptr nullptr Decision_default)
      else
        '(best_decision, _, _) <-
          dimension_loop (Z.to_nat dimension_) 0
                         (mkDecision (-1) (-1), -1, areas_to_add) ;;
        (* Check that we actually made a choice. *)
        _ <- assert (negb (dimension_index best_decision =? -1)) ;;
        '(areas_to_check, push_left_areas, push_right_areas) <-
          split_areas best_decision areas_to_add ;;
        (* If all data goes left or right, keep everything in the current
           node. *)
        if (size push_left_areas =? size areas_to_add)
           || (size push_right_areas =? size areas_to_add)
        then Ok (Node areas_to_add nullptr nullptr Decision_default)
        else
          lchild <- (if negb (is_empty push_left_areas)
                     then BuildTree_ fuel' dimension_ push_left_areas
                     else Ok nullptr) ;;
          rchild <- (if negb (is_empty push_right_areas)
                     then BuildTree_ fuel' dimension_ push_right_areas
                     else Ok nullptr) ;;
          Ok (Node areas_to_check lchild rchild best_decision)
  end.

(** ** class DecisionTree: the index *)

Record DecisionTree : Type := mkDecisionTree {
  dimension_ : Z;
  dirty_ : bool;
  root_ : NodePtr;
  areas_ : list Area
}.

(** The constructor. *)
Definition DecisionTree_new (dimension : Z) : DecisionTree :=
  mkDecisionTree dimension true nullptr [].

Definition AddArea (this : DecisionTree) (area : Area) : result DecisionTree :=
  _ <- assert (size area =? dimension_ this) ;;
  Ok (mkDecisionTree (dimension_ this) true (root_ this)
                     (areas_ this ++ [area])).

(** [FreeTree] releases the nodes of the old tree; [root_] is assigned right
    after it. The recursion budget is one more than the number of areas. *)
Definition RebuildTree (this : DecisionTree) : result DecisionTree :=
  root <- BuildTree_ (S (length (areas_ this))) (dimension_ this)
                     (areas_ this) ;;
  Ok (mkDecisionTree (dimension_ this) (dirty_ this) root (areas_ this)).

Definition RebuildTreeIfDirty (this : DecisionTree) : result DecisionTree :=
  if dirty_ this then
    this' <- RebuildTree this ;;
    Ok (mkDecisionTree (dimension_ this') false (root_ this') (areas_ this'))
  else Ok this.

Definition ContainsPoint (this : DecisionTree) (point : list Z)
  : result (bool * DecisionTree) :=
  _ <- assert (size point =? dimension_ this) ;;
  this' <- RebuildTreeIfDirty this ;;
  found <- FindPoint (root_ this') point ;;
  Ok (found, this').

Definition SumAreasToCheckSizes (this : DecisionTree) : result nat :=
  match root_ this with
  | nullptr => Fault
  | Node _ _ _ _ => Ok (SumAreasToCheckSizes_node (root_ this))
  end.

Definition GetAllAreas (this : DecisionTree) : list Area := areas_ this.

(** Calls a client can make, and a run of them from a given index. *)
Inductive call : Type :=
| CallAddArea (area : Area)
| CallContainsPoint (point : list Z)
| CallRebuildTree
| CallRebuildTreeIfDirty.

Definition step (this : DecisionTree) (c : call) : result DecisionTree :=
  match c with
  | CallAddArea area => AddArea this area
  | CallContainsPoint point =>
      '(_, this') <- ContainsPoint this point ;; Ok this'
  | CallRebuildTree => RebuildTree this
  | CallRebuildTreeIfDirty => RebuildTreeIfDirty this
  end.

Fixpoint run (this : DecisionTree) (calls : list call) : result DecisionTree :=
  match calls with
  | [] => Ok this
  | c :: calls' => this' <- step this c ;; run this' calls'
  end.

(** * Notions used to state the properties *)

(** Every coordinate of the point lies in the interval of its dimension. *)
Fixpoint covers (area : Area) (point : list Z) : bool :=
  match area, point with
  | [], [] => true
  | i :: area', x :: point' => Contains i x && covers area' point'
  | _, _ => false
  end.

(** The brute-force scan as a pure test over the areas. *)
Definition brute (point : list Z) (areas : list Area) : bool :=
  existsb (fun a => covers a point) areas.

Definition arity (D : Z) (a : Area) : Prop := size a = D.

(** The classification of an area against a decision, as the two loops of
    [BuildTree_] test it. *)
Definition straddles (dec : Decision) (a : Area) : bool :=
  match at_ a (dimension_index dec) with
  | Ok i => Contains i (ref_value dec)
  | _ => false
  end.

Definition goes_left (dec : Decision) (a : Area) : bool :=
  match at_ a (dimension_index dec) with
  | Ok i => negb (Contains i (ref_value dec)) && ToTheLeft i (ref_value dec)
  | _ => false
  end.

Definition goes_right (dec : Decision) (a : Area) : bool :=
  match at_ a (dimension_index dec) with
  | Ok i => negb (Contains i (ref_value dec))
            && negb (ToTheLeft i (ref_value dec))
            && ToTheRight i (ref_value dec)
  | _ => false
  end.

(** The number of areas whose interval at the decision's dimension contains
    its threshold. *)
Definition cut_through (dec : Decision) (areas : list Area) : Z :=
  size (filter (straddles dec) areas).

(** A comparator that orders by an integer key. *)
Definition less_by {A : Type} (key : A -> Z) (a b : A) : bool :=
  key a <? key b.

(** The right bounds of the areas at dimension [d]. *)
Definition rights (d : Z) (areas : list Area) : list Z :=
  map (right_at d) areas.

(** The right bound at [d] found at the median index of the sorted areas. *)
Definition median_right (d : Z) (areas : list Area) : Z :=
  nth (Z.to_nat (Z.quot (size areas - 1) 2))
      (rights d (sort (less_right d) areas)) 0.

Definition candidate_of (d : Z) (areas : list Area) : Decision :=
  mkDecision d (int_add (median_right d areas) 1).

(** What the loop over the dimensions has retained once the dimensions below
    [d] are done: nothing before the first one; afterwards the candidate of
    the earliest dimension among those of least cut-through count. *)
Definition retained (areas : list Area) (d : Z)
  (st : Decision * Z * list Area) : Prop :=
  let '(best, best_cut, all_areas) := st in
  Permutation all_areas areas /\
  ((d = 0 /\ dimension_index best = -1) \/
   (0 <= dimension_index best < d /\
    best = candidate_of (dimension_index best) areas /\
    best_cut = cut_through best areas /\
    forall d', 0 <= d' < d ->
      best_cut <= cut_through (candidate_of d' areas) areas /\
      (d' < dimension_index best ->
       best_cut < cut_through (candidate_of d' areas) areas))).

(** The areas held in the buckets of a tree, node first. *)
Fixpoint stored (t : NodePtr) : list Area :=
  match t with
  | nullptr => []
  | Node areas_to_check lchild rchild _ =>
      areas_to_check ++ stored lchild ++ stored rchild
  end.

(** How [FindPoint] treats a child pointer: absent, no match. *)
Definition find_child (child : NodePtr) (point : list Z) : result bool :=
  match child with
  | nullptr => Ok false
  | Node _ _ _ _ => FindPoint child point
  end.

(** The outcomes of [BuildTree_], as a relation between the areas handed to
    a call and the pointer stored for them: a child left absent for no
    areas, the node of a single area, the node that keeps everything under
    the degeneracy guard, and the split node with its two children. *)
Inductive built (D : Z) : list Area -> NodePtr -> Prop :=
| built_absent : built D [] nullptr
| built_single (area : Area) :
    built D [area] (Node [area] nullptr nullptr Decision_default)
| built_kept (areas : list Area) (best : Decision) (best_cut : Z)
    (all_areas chk push_left push_right : list Area) :
    size areas >= 2 ->
    dimension_loop (Z.to_nat D) 0 (mkDecision (-1) (-1), -1, areas)
    = Ok (best, best_cut, all_areas) ->
    dimension_index best <> -1 ->
    split_areas best areas = Ok (chk, push_left, push_right) ->
    size push_left = size areas \/ size push_right = size areas ->
    built D areas (Node areas nullptr nullptr Decision_default)
| built_split (areas : list Area) (best : Decision) (best_cut : Z)
    (all_areas chk push_left push_right : list Area) (l r : NodePtr) :
    size areas >= 2 ->
    dimension_loop (Z.to_nat D) 0 (mkDecision (-1) (-1), -1, areas)
    = Ok (best, best_cut, all_areas) ->
    dimension_index best <> -1 ->
    split_areas best areas = Ok (chk, push_left, push_right) ->
    size push_left <> size areas -> size push_right <> size areas ->
    built D push_left l -> built D push_right r ->
    built D areas (Node chk l r best).

(** The split invariant of a tree: under a node with a valid decision, the
    left subtree holds areas wholly below the threshold, the right subtree
    areas wholly above it, and whatever contains the threshold is in the
    node's own bucket. *)
Fixpoint split_invariant (t : NodePtr) : Prop :=
  match t with
  | nullptr => True
  | Node areas_to_check lchild rchild decision =>
      (dimension_index decision >= 0 ->
       (forall a, In a (stored lchild) ->
          exists i, at_ a (dimension_index decision) = Ok i
                    /\ right i < ref_value decision) /\
       (forall a, In a (stored rchild) ->
          exists i, at_ a (dimension_index decision) = Ok i
                    /\ ref_value decision < left i) /\
       (forall a i, In a (stored t) ->
          at_ a (dimension_index decision) = Ok i ->
          Contains i (ref_value decision) = true ->
          In a areas_to_check))
      /\ split_invariant lchild /\ split_invariant rchild
  end.

(** The invariant of the index: the registered areas have the arity of the
    index; an index without areas is dirty; a clean index holds the tree
    built from its areas. *)
Definition index_ok (this : DecisionTree) : Prop :=
  Forall (arity (dimension_ this)) (areas_ this) /\
  (areas_ this = [] -> dirty_ this = true) /\
  (dirty_ this = false ->
   BuildTree_ (S (length (areas_ this))) (dimension_ this) (areas_ this)
   = Ok (root_ this)).

(** No right bound sits at [INT_MAX], where [right + 1] leaves the range
    of [int]. *)
Definition increment_in_range (a : Area) : Prop :=
  Forall (fun i => INT_MIN <= right i < INT_MAX) a.

(** ** Scenarios *)

(** The four squares of [SimpleTest], registered and rebuilt. *)
Definition four_squares_calls : list call :=
  [ CallAddArea [mkInterval 1 5; mkInterval 1 5];
    CallAddArea [mkInterval 1 5; mkInterval 11 15];
    CallAddArea [mkInterval 11 15; mkInterval 11 15];
    CallAddArea [mkInterval 11 15; mkInterval 1 5];
    CallRebuildTree ].

Definition four_squares : DecisionTree :=
  Eval vm_compute in
    match run (DecisionTree_new 2) four_squares_calls with
    | Ok this => this
    | _ => DecisionTree_new 2
    end.

(** Two disjoint intervals on a line, [0,5] and [6,10]. *)
Definition two_intervals_calls : list call :=
  [ CallAddArea [mkInterval 0 5]; CallAddArea [mkInterval 6 10] ].

Definition two_intervals : DecisionTree :=
  Eval vm_compute in
    match run (DecisionTree_new 1) two_intervals_calls with
    | Ok this => this
    | _ => DecisionTree_new 1
    end.

(** * The test driver *)

(** [rand()] is a source of integers outside the program: its n-th call
    returns [rnd n], and the number of calls made so far is threaded through
    the driver. The timing harness [measure<>::execution] runs its argument
    once; what the driver writes to [cout] is left out. *)

Definition offset_mod : Z := 100000.

(** [int offset = rand() % offset_mod;
     Interval(offset + rand() % 100, offset + 100 + rand() % 100)].
    The two calls in the constructor's arguments are indeterminately
    sequenced; [left_first] says that the call of the first argument runs
    first. The sums stay far inside the range of [int]. *)
Definition random_interval (rnd : nat -> Z) (left_first : bool) (k : nat)
  : Interval * nat :=
  let offset := Z.rem (rnd k) offset_mod in
  let first := Z.rem (rnd (S k)) 100 in
  let second := Z.rem (rnd (S (S k))) 100 in
  if left_first
  then (mkInterval (offset + first) (offset + 100 + second), S (S (S k)))
  else (mkInterval (offset + second) (offset + 100 + first), S (S (S k))).

(** [for (d = 0; d < D; ++d) area.push_back(Interval(...))] with [dims]
    intervals to go. *)
Fixpoint random_area (rnd : nat -> Z) (left_first : bool) (dims : nat)
  (k : nat) : Area * nat :=
  match dims with
  | O => ([], k)
  | S dims' =>
      let '(i, k1) := random_interval rnd left_first k in
      let '(rest, k2) := random_area rnd left_first dims' k1 in
      (i :: rest, k2)
  end.

(** [for (d = 0; d < D; ++d) point.push_back(rand() % offset_mod)] *)
Fixpoint random_point (rnd : nat -> Z) (dims : nat) (k : nat)
  : list Z * nat :=
  match dims with
  | O => ([], k)
  | S dims' =>
      let '(rest, k1) := random_point rnd dims' (S k) in
      (Z.rem (rnd k) offset_mod :: rest, k1)
  end.

(** The loop of [add_count] insertions. *)
Fixpoint add_random_areas (rnd : nat -> Z) (left_first : bool) (D : Z)
  (count : nat) (dt : DecisionTree) (k : nat) : result (DecisionTree * nat) :=
  match count with
  | O => Ok (dt, k)
  | S count' =>
      let '(area, k1) := random_area rnd left_first (Z.to_nat D) k in
      dt1 <- AddArea dt area ;;
      add_random_areas rnd left_first D count' dt1 k1
  end.

(** The loop of [contains_count] queries, each compared with the
    brute-force scan when [check_for_correctness] is set. *)
Fixpoint query_random_points (rnd : nat -> Z) (D : Z)
  (check_for_correctness : bool) (count : nat) (dt : DecisionTree) (k : nat)
  : result (DecisionTree * nat) :=
  match count with
  | O => Ok (dt, k)
  | S count' =>
      let '(point, k1) := random_point rnd (Z.to_nat D) k in
      '(found, dt1) <- ContainsPoint dt point ;;
      _ <- (if check_for_correctness then
              expected <- BruteContains point (GetAllAreas dt1) ;;
              assert (Bool.eqb found expected)
            else Ok tt) ;;
      query_random_points rnd D check_for_correctness count' dt1 k1
  end.

(** [RandomTest<D>(add_count, contains_count, check_for_correctness)],
    entered after [k] calls of [rand()]; returns the number of calls made.
    The last assertion compares a [size_t] with [add_count] converted to
    [size_t] (64 bits). *)
Definition RandomTest (rnd : nat -> Z) (left_first : bool)
  (D add_count contains_count : Z) (check_for_correctness : bool) (k : nat)
  : result nat :=
  '(dt, k1) <- add_random_areas rnd left_first D (Z.to_nat add_count)
                                (DecisionTree_new D) k ;;
  dt1 <- RebuildTree dt ;;
  '(dt2, k2) <- query_random_points rnd D check_for_correctness
                                    (Z.to_nat contains_count) dt1 k1 ;;
  sum <- SumAreasToCheckSizes dt2 ;;
  _ <- assert (Z.of_nat sum =? add_count mod 2 ^ 64) ;;
  Ok k2.

Definition SimpleTest : result unit :=
  dt <- AddArea (DecisionTree_new 2) [mkInterval 1 5; mkInterval 1 5] ;;
  dt <- AddArea dt [mkInterval 1 5; mkInterval 11 15] ;;
  dt <- AddArea dt [mkInterval 11 15; mkInterval 11 15] ;;
  dt <- AddArea dt [mkInterval 11 15; mkInterval 1 5] ;;
  dt <- RebuildTree dt ;;
  '(found, dt) <- ContainsPoint dt [3; 3] ;;
  _ <- assert (Bool.eqb found true) ;;
  '(found, dt) <- ContainsPoint dt [20; 20] ;;
  _ <- assert (Bool.eqb found false) ;;
  Ok tt.

(** [main]: the manual test, three timing runs and the correctness stress
    run; returns the exit status. *)
Definition main (rnd : nat -> Z) (left_first : bool) : result Z :=
  _ <- SimpleTest ;;
  k <- RandomTest rnd left_first 2 1000 1000000 false 0 ;;
  k <- RandomTest rnd left_first 4 1000 1000000 false k ;;
  k <- RandomTest rnd left_first 8 1000 1000000 false k ;;
  _ <- RandomTest rnd left_first 2 1000 100000 true k ;;
  Ok 0.

(** * The textual dump *)

(** [cout] is the text written so far; [cout << s] appends to it. *)
Definition put (cout s : String.string) : String.string :=
  String.append cout s.

(** [cout << endl] *)
Definition endl : String.string :=
  String.String (Ascii.ascii_of_nat 10) String.EmptyString.

(** [cout << n] for an [int]: its decimal digits, after a minus sign when
    negative. *)
Definition put_int (cout : String.string) (n : Z) : String.string :=
  put cout (DecimalString.NilZero.string_of_int (Z.to_int n)).

Definition Decision_Print (this : Decision) (cout : String.string)
  : String.string :=
  put (put_int (put (put_int (put cout "Decision(dim = ")
                             (dimension_index this))
                    ", ref = ")
               (ref_value this))
      ")".

(** [DecisionTreeNode::Print(indent)] *)
Fixpoint Node_Print (this : NodePtr) (indent cout : String.string)
  : result String.string :=
  match this with
  | nullptr => Fault
  | Node _ lchild rchild decision =>
      let cout := put (put (put cout indent) "NODE") endl in
      let cout := put (Decision_Print decision (put cout indent)) endl in
      cout <- match lchild with
              | nullptr =>
                  Ok (put (put (put cout indent) "Left child missing.") endl)
              | Node _ _ _ _ =>
                  Node_Print lchild (String.append indent "  ")
                    (put (put (put cout indent) "Left child:") endl)
              end ;;
      match rchild with
      | nullptr =>
          Ok (put (put (put cout indent) "Right child missing.") endl)
      | Node _ _ _ _ =>
          Node_Print rchild (String.append indent "  ")
            (put (put (put cout indent) "Right child:") endl)
      end
  end.

(** [DecisionTree::Print()] *)
Definition DecisionTree_Print (this : DecisionTree) (cout : String.string)
  : result String.string :=
  match root_ this with
  | nullptr => Ok (put (put cout "Root node is null.") endl)
  | Node _ _ _ _ =>
      Node_Print (root_ this) "" (put (put cout "Decision tree:") endl)
  end.

(** The number of line ends in a text. *)
Fixpoint line_ends (s : String.string) : nat :=
  match s with
  | String.EmptyString => 0%nat
  | String.String c s' =>
      ((if Ascii.eqb c (Ascii.ascii_of_nat 10) then 1 else 0) + line_ends s')%nat
  end.

(** * Further notions *)

(** The areas registered by a sequence of calls, in order. *)
Fixpoint areas_added (calls : list call) : list Area :=
  match calls with
  | [] => []
  | CallAddArea area :: calls' => area :: areas_added calls'
  | _ :: calls' => areas_added calls'
  end.

Definition is_add (c : call) : bool :=
  match c with CallAddArea _ => true | _ => false end.

(** The nodes of a tree and its height. *)
Fixpoint node_count (t : NodePtr) : nat :=
  match t with
  | nullptr => 0%nat
  | Node _ l r _ => S (node_count l + node_count r)
  end.

Fixpoint height (t : NodePtr) : nat :=
  match t with
  | nullptr => 0%nat
  | Node _ l r _ => S (Nat.max (height l) (height r))
  end.

(** The shape every built tree has: each subtree holds an area; a node
    whose decision is not valid carries the default decision and has no
    children; a valid decision names a dimension of the index. *)
Fixpoint well_shaped (D : Z) (t : NodePtr) : Prop :=
  match t with
  | nullptr => True
  | Node chk l r dec =>
      stored t <> [] /\
      (dimension_index dec < 0 ->
       dec = Decision_default /\ l = nullptr /\ r = nullptr) /\
      (0 <= dimension_index dec -> dimension_index dec < D) /\
      well_shaped D l /\ well_shaped D r
  end.

(** Under every valid decision a left child exists and holds at least half
    of the areas under the node. *)
Fixpoint left_heavy (t : NodePtr) : Prop :=
  match t with
  | nullptr => True
  | Node chk l r dec =>
      (0 <= dimension_index dec ->
       is_null l = false /\
       (length (stored t) <= 2 * length (stored l))%nat) /\
      left_heavy l /\ left_heavy r
  end.

(** Two trees with the same decisions and children, whose buckets hold the
    same areas up to their order. *)
Fixpoint same_shape (t u : NodePtr) : Prop :=
  match t, u with
  | nullptr, nullptr => True
  | Node chk l r dec, Node chk' l' r' dec' =>
      Permutation chk chk' /\ dec = dec' /\
      same_shape l l' /\ same_shape r r'
  | _, _ => False
  end.

(** The four squares after a first query: a clean index. *)
Definition four_squares_queried : DecisionTree :=
  Eval vm_compute in
    match run (DecisionTree_new 2)
              (four_squares_calls ++ [CallContainsPoint [3; 3]]) with
    | Ok this => this
    | _ => DecisionTree_new 2
    end.

(** The decision the loop over the dimensions retains for [areas]: the
    candidate of the earliest dimension of least cut-through count. *)
Definition is_retained (D : Z) (areas : list Area) (best : Decision) : Prop :=
  0 <= dimension_index best < D /\
  best = candidate_of (dimension_index best) areas /\
  forall d, 0 <= d < D ->
    cut_through best areas <= cut_through (candidate_of d areas) areas /\
    (d < dimension_index best ->
     cut_through best areas < cut_through (candidate_of d areas) areas).

(** An index of dimension [D] that holds areas and whose root is the tree
    built from them, whether or not its dirty flag says so. *)
Definition holds_built_tree (D : Z) (dt : DecisionTree) : Prop :=
  dimension_ dt = D /\
  Forall (arity D) (areas_ dt) /\
  BuildTree_ (S (length (areas_ dt))) D (areas_ dt) = Ok (root_ dt).



(** * Properties *)

(** ** Runs *)

Lemma bind_Ok {A B : Type} (m : result A) (k : A -> result B) (b : B) :
  bind m k = Ok b -> exists a, m = Ok a /\ k a = Ok b.
Proof. destruct m; simpl; intros H; try discriminate. eauto. Qed.

Lemma assert_Ok (c : bool) (u : unit) : assert c = Ok u -> c = true.
Proof. destruct c; simpl; congruence. Qed.

(** Peels the binds of a successful run found in hypothesis [H]. *)
Ltac run_inv H :=
  repeat match type of H with
  | bind ?m ?k = Ok ?b =>
      let a := fresh "a" in
      let Hm := fresh "Hm" in
      apply bind_Ok in H; destruct H as (a & Hm & H); cbv beta in H
  | (let '(_, _) := ?p in _) = _ => destruct p
  end.

(** ** Vectors *)

Lemma at_Ok {A : Type} (v : list A) (i : Z) (x : A) :
  at_ v i = Ok x <-> 0 <= i /\ nth_error v (Z.to_nat i) = Some x.
Proof.
  unfold at_. destruct (Z.ltb_spec i 0).
  - split; [discriminate | lia].
  - destruct (nth_error v (Z.to_nat i)) eqn:E; split; intros H1;
      try discriminate; try (inversion H1; subst; auto; fail);
      destruct H1 as [_ H1]; congruence.
Qed.

Lemma at_range {A : Type} (v : list A) (i : Z) (x : A) :
  at_ v i = Ok x -> 0 <= i < size v.
Proof.
  intros H. apply at_Ok in H. destruct H as [H0 H].
  assert (Hlt : (Z.to_nat i < length v)%nat)
    by (apply nth_error_Some; congruence).
  unfold size. lia.
Qed.

Lemma at_In {A : Type} (v : list A) (i : Z) (x : A) :
  at_ v i = Ok x -> In x v.
Proof. intros H. apply at_Ok in H. eapply nth_error_In, H. Qed.

Lemma at_defined {A : Type} (v : list A) (i : Z) :
  0 <= i < size v -> exists x, at_ v i = Ok x.
Proof.
  intros H. unfold size in H.
  destruct (nth_error v (Z.to_nat i)) eqn:E.
  - exists a. apply at_Ok. split; [lia | exact E].
  - apply nth_error_None in E. lia.
Qed.

Lemma at_nth {A : Type} (v : list A) (i : Z) (x d : A) :
  at_ v i = Ok x -> nth (Z.to_nat i) v d = x.
Proof. intros H. apply at_Ok in H. apply nth_error_nth. tauto. Qed.

Lemma at_app_cons {A : Type} (pre : list A) (x : A) (suf : list A) :
  at_ (pre ++ x :: suf) (size pre) = Ok x.
Proof.
  apply at_Ok. unfold size. split; [lia |].
  rewrite Nat2Z.id, nth_error_app2 by lia.
  now rewrite Nat.sub_diag.
Qed.

Lemma size_app {A : Type} (u v : list A) : size (u ++ v) = size u + size v.
Proof. unfold size. rewrite length_app. lia. Qed.

Lemma has_dim_true (d : Z) (a : Area) :
  has_dim d a = true <-> 0 <= d < size a.
Proof.
  unfold has_dim. split.
  - destruct (at_ a d) eqn:E; try discriminate. intros _. eapply at_range, E.
  - intros H. destruct (at_defined a d H) as [x ->]. reflexivity.
Qed.

Lemma right_at_Ok (d : Z) (a : Area) (i : Interval) :
  at_ a d = Ok i -> right_at d a = right i.
Proof. unfold right_at. now intros ->. Qed.

(** ** The scan of one area *)

Lemma area_contains_from_covers (pre suf : Area) (coords : list Z) :
  length suf = length coords ->
  area_contains_from (pre ++ suf) (size pre) coords = Ok (covers suf coords).
Proof.
  revert pre suf. induction coords as [|x coords IH]; intros pre suf Hlen.
  - destruct suf; [reflexivity | discriminate].
  - destruct suf as [|i suf]; [discriminate |].
    simpl. rewrite at_app_cons. simpl.
    destruct (Contains i x); simpl; [| reflexivity].
    replace (size pre + 1) with (size (pre ++ [i]))
      by (rewrite size_app; reflexivity).
    replace (pre ++ i :: suf) with ((pre ++ [i]) ++ suf)
      by (now rewrite <- app_assoc).
    apply IH. simpl in Hlen. lia.
Qed.

Lemma area_contains_point_covers (area : Area) (point : list Z) :
  length area = length point ->
  area_contains_point area point = Ok (covers area point).
Proof. intros H. exact (area_contains_from_covers [] area point H). Qed.

Lemma covers_Forall2 (area : Area) (point : list Z) :
  covers area point = true <->
  Forall2 (fun i x => Contains i x = true) area point.
Proof.
  revert point. induction area as [|i area IH]; intros [|x point]; simpl;
    split; intros H; try discriminate; try constructor; try (inversion H; fail).
  - apply andb_true_iff in H. tauto.
  - apply IH. apply andb_true_iff in H. tauto.
  - inversion H; subst. apply andb_true_iff. split; [assumption |].
    now apply IH.
Qed.

Lemma covers_at (area : Area) (point : list Z) (d : Z) (i : Interval) (x : Z) :
  covers area point = true -> at_ area d = Ok i -> at_ point d = Ok x ->
  Contains i x = true.
Proof.
  intros Hc Ha Hp. apply at_Ok in Ha. apply at_Ok in Hp.
  destruct Ha as [_ Ha]. destruct Hp as [_ Hp].
  revert Hc Ha Hp. generalize (Z.to_nat d) as n. revert point.
  induction area as [|j area IH]; intros [|y point] n Hc Ha Hp;
    try discriminate; try (destruct n; discriminate).
  simpl in Hc. apply andb_true_iff in Hc. destruct Hc as [Hj Hc].
  destruct n; simpl in Ha, Hp.
  - congruence.
  - eapply IH; eauto.
Qed.

Lemma BruteContains_brute (point : list Z) (areas : list Area) :
  Forall (arity (size point)) areas ->
  BruteContains point areas = Ok (brute point areas).
Proof.
  induction 1 as [|a areas Ha _ IH]; [reflexivity |].
  simpl. rewrite area_contains_point_covers
    by (unfold arity, size in Ha; lia).
  simpl. destruct (covers a point); simpl; [reflexivity | exact IH].
Qed.

Lemma CurrentNodeContainsPoint_Brute (areas : list Area) (point : list Z) :
  CurrentNodeContainsPoint areas point = BruteContains point areas.
Proof.
  induction areas as [|a areas IH]; [reflexivity |].
  simpl. now rewrite IH.
Qed.

Lemma brute_app (point : list Z) (u v : list Area) :
  brute point (u ++ v) = brute point u || brute point v.
Proof. apply existsb_app. Qed.

Lemma brute_perm (point : list Z) (u v : list Area) :
  Permutation u v -> brute point u = brute point v.
Proof.
  intros H. unfold brute.
  induction H; simpl; try congruence.
  now rewrite !orb_assoc, (orb_comm (covers y point)).
Qed.

Lemma brute_false (point : list Z) (areas : list Area) :
  (forall a, In a areas -> covers a point = false) ->
  brute point areas = false.
Proof.
  intros H. unfold brute.
  destruct (existsb _ areas) eqn:E; [| reflexivity].
  apply existsb_exists in E. destruct E as (a & Hin & Hc).
  rewrite (H a Hin) in Hc. discriminate.
Qed.

(** ** The sort *)

Section Sorting.
Context {A : Type} (key : A -> Z).

Lemma insert_sorted_perm (x : A) (v : list A) :
  Permutation (insert_sorted (less_by key) x v) (x :: v).
Proof.
  induction v as [|y v IH]; simpl; [reflexivity |].
  destruct (less_by key x y); [reflexivity |].
  rewrite IH. apply perm_swap.
Qed.

Lemma sort_perm (v : list A) : Permutation (sort (less_by key) v) v.
Proof.
  induction v as [|x v IH]; simpl; [constructor |].
  rewrite insert_sorted_perm. now constructor.
Qed.

Lemma insert_sorted_HdRel (k : Z) (x : A) (v : list A) :
  k <= key x -> HdRel Z.le k (map key v) ->
  HdRel Z.le k (map key (insert_sorted (less_by key) x v)).
Proof.
  intros Hx Hv. destruct v as [|y v]; simpl.
  - now constructor.
  - destruct (less_by key x y); simpl; constructor; [assumption |].
    now inversion Hv.
Qed.

Lemma insert_sorted_Sorted (x : A) (v : list A) :
  Sorted Z.le (map key v) -> Sorted Z.le (map key (insert_sorted (less_by key) x v)).
Proof.
  induction v as [|y v IH]; simpl; intros Hs.
  - repeat constructor.
  - inversion Hs as [|? ? Hs' Hhd]; subst.
    unfold less_by at 1. destruct (Z.ltb_spec (key x) (key y)); simpl.
    + constructor; [assumption |]. constructor. lia.
    + constructor; [now apply IH |].
      apply insert_sorted_HdRel; [lia | assumption].
Qed.

Lemma sort_Sorted (v : list A) : Sorted Z.le (map key (sort (less_by key) v)).
Proof.
  induction v as [|x v IH]; simpl; [constructor |].
  now apply insert_sorted_Sorted.
Qed.
End Sorting.

(** An ascending sequence is determined by the values it holds. *)
Lemma Sorted_perm_eq (u v : list Z) :
  Sorted Z.le u -> Sorted Z.le v -> Permutation u v -> u = v.
Proof.
  intros Hu Hv.
  apply Sorted_StronglySorted in Hu; [| intros ? ? ? ? ?; lia].
  apply Sorted_StronglySorted in Hv; [| intros ? ? ? ? ?; lia].
  revert v Hv. induction Hu as [|a u Hu IH Ha]; intros v Hv Hp.
  - apply Permutation_nil in Hp. now subst.
  - destruct Hv as [|b v Hv Hb].
    + symmetry in Hp. apply Permutation_nil in Hp. discriminate.
    + assert (a = b).
      { assert (Hab : In a (b :: v))
          by (eapply Permutation_in; [exact Hp | now left]).
        assert (Hba : In b (a :: u))
          by (eapply Permutation_in; [symmetry; exact Hp | now left]).
        rewrite Forall_forall in Ha, Hb.
        destruct Hab as [-> | Hab]; [reflexivity |].
        destruct Hba as [-> | Hba]; [reflexivity |].
        specialize (Ha _ Hba). specialize (Hb _ Hab). lia. }
      subst b. f_equal. apply IH; [assumption |].
      eapply Permutation_cons_inv, Hp.
Qed.

(** The sorted right bounds do not depend on the order in which the areas
    reach the sort, nor on how the sort orders equal keys. *)
Lemma median_key_unique (d : Z) (areas : list Area) (sorted : list Z) :
  Permutation sorted (rights d areas) -> Sorted Z.le sorted ->
  rights d (sort (less_right d) areas) = sorted.
Proof.
  intros Hp Hs. apply Sorted_perm_eq.
  - apply (sort_Sorted (right_at d)).
  - assumption.
  - rewrite Hp. unfold rights. apply Permutation_map.
    apply (sort_perm (right_at d)).
Qed.

Lemma median_right_perm (d : Z) (u v : list Area) :
  Permutation u v -> median_right d u = median_right d v.
Proof.
  intros Hp. unfold median_right.
  rewrite (median_key_unique d u (rights d (sort (less_right d) v))).
  - unfold size. now rewrite (Permutation_length Hp).
  - unfold rights. apply Permutation_map.
    rewrite (sort_perm (right_at d)). now symmetry.
  - apply (sort_Sorted (right_at d)).
Qed.

(** ** The candidate of a dimension and its tallies *)

Lemma cut_through_perm (dec : Decision) (u v : list Area) :
  Permutation u v -> cut_through dec u = cut_through dec v.
Proof.
  intros Hp. unfold cut_through, size. f_equal.
  induction Hp; simpl; try congruence.
  - destruct (straddles dec x); simpl; congruence.
  - destruct (straddles dec x), (straddles dec y); reflexivity.
Qed.

Lemma cut_through_cons (dec : Decision) (a : Area) (areas : list Area) :
  cut_through dec (a :: areas)
  = (if straddles dec a then 1 else 0) + cut_through dec areas.
Proof.
  unfold cut_through, size. simpl.
  destruct (straddles dec a); simpl length; lia.
Qed.

(** The three predicates of [Interval] leave no fourth case. *)
Lemma classification_exhaustive (i : Interval) (x : Z) :
  Contains i x = false -> ToTheLeft i x = false -> ToTheRight i x = true.
Proof.
  unfold Contains, ToTheLeft, ToTheRight. intros Hc Hl.
  apply andb_false_iff in Hc.
  destruct (Z.ltb_spec x (left i)); [reflexivity |].
  destruct Hc as [Hc | Hc].
  - apply Z.leb_gt in Hc. lia.
  - apply Z.leb_gt in Hc.
    destruct (Z.gtb_spec x (right i)); [discriminate | lia].
Qed.

Lemma count_areas_cut (dec : Decision) (all_areas : list Area) (c l r : Z) :
  Forall (fun a => has_dim (dimension_index dec) a = true) all_areas ->
  exists l' r',
    count_areas dec all_areas (c, l, r)
    = Ok (c + cut_through dec all_areas, l', r').
Proof.
  intros H. revert c l r.
  induction H as [|a rest Ha _ IH]; intros c l r.
  - exists l, r. simpl. now rewrite Z.add_0_r.
  - rewrite cut_through_cons. unfold straddles. simpl.
    unfold has_dim in Ha.
    destruct (at_ a (dimension_index dec)) as [i| |]; try discriminate.
    simpl. destruct (Contains i (ref_value dec)) eqn:Ec.
    + destruct (IH (c + 1) l r) as (l' & r' & ->). exists l', r'.
      now rewrite Z.add_assoc.
    + rewrite Z.add_0_l. destruct (ToTheLeft i (ref_value dec)) eqn:El.
      * apply IH.
      * rewrite (classification_exhaustive _ _ Ec El). apply IH.
Qed.

Lemma median_index_range (n : Z) :
  1 <= n -> 0 <= Z.quot (n - 1) 2 < n.
Proof.
  intros H. rewrite Z.quot_div_nonneg by lia.
  split; [apply Z.div_pos; lia |].
  apply Z.div_lt_upper_bound; lia.
Qed.

Lemma candidate_Ok (d : Z) (all_areas areas : list Area) :
  Forall (fun a => has_dim d a = true) all_areas ->
  Permutation all_areas areas -> 1 <= size areas ->
  candidate d all_areas
  = Ok (sort (less_right d) all_areas, candidate_of d areas).
Proof.
  intros Hdim Hp Hn. unfold candidate, sort_by_right.
  assert (Hb : forallb (has_dim d) all_areas = true)
    by (apply forallb_forall; now apply Forall_forall).
  rewrite Hb. simpl.
  set (sorted := sort (less_right d) all_areas).
  assert (Hps : Permutation sorted all_areas)
    by apply (sort_perm (right_at d)).
  assert (Hsz : size sorted = size areas)
    by (unfold size; now rewrite (Permutation_length Hps),
                                 (Permutation_length Hp)).
  destruct (at_defined sorted (Z.quot (size sorted - 1) 2)) as [median Hm].
  { rewrite Hsz. now apply median_index_range. }
  rewrite Hm. simpl.
  assert (Hmd : has_dim d median = true).
  { rewrite Forall_forall in Hdim. apply Hdim.
    eapply Permutation_in; [exact Hps |]. eapply at_In, Hm. }
  unfold has_dim in Hmd.
  destruct (at_ median d) as [i| |] eqn:Ei; try discriminate.
  simpl. unfold candidate_of. do 3 f_equal.
  rewrite <- (median_right_perm d all_areas areas Hp).
  unfold median_right, rights. fold sorted.
  replace (size all_areas) with (size sorted)
    by (unfold size; now rewrite (Permutation_length Hps)).
  f_equal.
  assert (Hlt : (Z.to_nat (Z.quot (size sorted - 1) 2) < length sorted)%nat).
  { destruct (at_range _ _ _ Hm) as [Hr0 Hr1].
    apply Nat2Z.inj_lt. rewrite Z2Nat.id by exact Hr0. exact Hr1. }
  rewrite (nth_indep _ 0 (right_at d [])) by now rewrite length_map.
  rewrite map_nth.
  transitivity (right_at d median); [symmetry; now apply right_at_Ok |].
  f_equal. symmetry. exact (at_nth _ _ _ _ Hm).
Qed.

(** ** The loop over the dimensions *)

Lemma arity_has_dim (D d : Z) (areas all_areas : list Area) :
  Forall (arity D) areas -> Permutation all_areas areas -> 0 <= d < D ->
  Forall (fun a => has_dim d a = true) all_areas.
Proof.
  intros Ha Hp Hd. apply Forall_forall. intros a Hin.
  apply has_dim_true. rewrite Forall_forall in Ha.
  rewrite (Ha a) by (eapply Permutation_in; eauto). exact Hd.
Qed.

Lemma dimension_loop_retained (D : Z) (areas : list Area) :
  Forall (arity D) areas -> 1 <= size areas ->
  forall (remaining : nat) (d : Z) (st : Decision * Z * list Area),
    0 <= d -> d + Z.of_nat remaining = D -> retained areas d st ->
    exists st', dimension_loop remaining d st = Ok st' /\ retained areas D st'.
Proof.
  intros Har Hn. induction remaining as [|remaining IH];
    intros d [[best best_cut] all_areas] Hd HD Hst.
  - exists (best, best_cut, all_areas). split; [reflexivity |].
    replace D with d by lia. exact Hst.
  - destruct Hst as [Hp Hbest]. simpl.
    assert (Hdim : Forall (fun a => has_dim d a = true) all_areas)
      by (eapply arity_has_dim; eauto; lia).
    rewrite (candidate_Ok d all_areas areas Hdim Hp Hn). simpl.
    set (sorted := sort (less_right d) all_areas).
    assert (Hps : Permutation sorted areas)
      by (unfold sorted; now rewrite (sort_perm (right_at d))).
    destruct (count_areas_cut (candidate_of d areas) sorted 0 0 0)
      as (l' & r' & Hcount).
    { eapply arity_has_dim; eauto. simpl. lia. }
    rewrite Hcount. simpl.
    rewrite (cut_through_perm _ _ _ Hps).
    set (cut := cut_through (candidate_of d areas) areas).
    apply IH; [lia | lia |].
    destruct ((dimension_index best =? -1) || (cut <? best_cut)) eqn:Eupd.
    + split; [exact Hps |]. right. simpl.
      split; [lia |]. split; [reflexivity |]. split; [reflexivity |].
      intros d' Hd'. fold cut.
      destruct (Z.eq_dec d' d) as [-> | Hne]; [fold cut; lia |].
      destruct Hbest as [[-> _] | (Hb & _ & _ & Hmin)]; [lia |].
      apply orb_true_iff in Eupd. destruct Eupd as [E | E].
      * apply Z.eqb_eq in E. lia.
      * apply Z.ltb_lt in E. destruct (Hmin d'); lia.
    + apply orb_false_iff in Eupd. destruct Eupd as [E1 E2].
      apply Z.eqb_neq in E1. apply Z.ltb_ge in E2.
      split; [exact Hps |]. right.
      destruct Hbest as [[_ Hb] | (Hb & Hc & Hcut & Hmin)]; [contradiction |].
      split; [lia |]. split; [exact Hc |]. split; [exact Hcut |].
      intros d' Hd'.
      destruct (Z.eq_dec d' d) as [-> | Hne]; [fold cut; lia |].
      apply Hmin. lia.
Qed.

Lemma dimension_loop_Ok (D : Z) (areas : list Area) :
  0 < D -> Forall (arity D) areas -> 1 <= size areas ->
  exists best best_cut all_areas,
    dimension_loop (Z.to_nat D) 0 (mkDecision (-1) (-1), -1, areas)
    = Ok (best, best_cut, all_areas) /\
    Permutation all_areas areas /\
    0 <= dimension_index best < D /\
    best = candidate_of (dimension_index best) areas /\
    best_cut = cut_through best areas /\
    forall d, 0 <= d < D ->
      best_cut <= cut_through (candidate_of d areas) areas /\
      (d < dimension_index best ->
       best_cut < cut_through (candidate_of d areas) areas).
Proof.
  intros HD Har Hn.
  destruct (dimension_loop_retained D areas Har Hn (Z.to_nat D) 0
              (mkDecision (-1) (-1), -1, areas))
    as ([[best best_cut] all_areas] & Hrun & Hp & Hret).
  - lia.
  - lia.
  - split; [reflexivity |]. left. split; reflexivity.
  - exists best, best_cut, all_areas. split; [exact Hrun |].
    split; [exact Hp |].
    destruct Hret as [[H0 _] | (Hb & Hc & Hcut & Hmin)]; [lia |]. auto.
Qed.

(** ** The partition of the areas *)

Lemma split_areas_has_dim (dec : Decision) (areas : list Area)
  (res : list Area * list Area * list Area) :
  split_areas dec areas = Ok res ->
  Forall (fun a => has_dim (dimension_index dec) a = true) areas.
Proof.
  revert res. induction areas as [|a areas IH]; intros res H; [constructor |].
  simpl in H. run_inv H. constructor.
  - unfold has_dim. now rewrite Hm.
  - eapply IH. eassumption.
Qed.

Lemma split_areas_filter (dec : Decision) (areas : list Area) :
  Forall (fun a => has_dim (dimension_index dec) a = true) areas ->
  split_areas dec areas
  = Ok (filter (straddles dec) areas, filter (goes_left dec) areas,
        filter (goes_right dec) areas).
Proof.
  induction 1 as [|a areas Ha _ IH]; [reflexivity |].
  simpl. rewrite IH. unfold straddles, goes_left, goes_right.
  unfold has_dim in Ha.
  destruct (at_ a (dimension_index dec)) as [i| |]; try discriminate.
  simpl. destruct (Contains i (ref_value dec)) eqn:Ec; simpl; [reflexivity |].
  destruct (ToTheLeft i (ref_value dec)) eqn:El; simpl; [reflexivity |].
  now rewrite (classification_exhaustive _ _ Ec El).
Qed.

Lemma split_areas_Ok (dec : Decision) (areas chk pl pr : list Area) :
  split_areas dec areas = Ok (chk, pl, pr) ->
  chk = filter (straddles dec) areas /\
  pl = filter (goes_left dec) areas /\
  pr = filter (goes_right dec) areas.
Proof.
  intros H. pose proof (split_areas_has_dim _ _ _ H) as Hd.
  rewrite (split_areas_filter _ _ Hd) in H. inversion H. auto.
Qed.

Lemma split_areas_perm (dec : Decision) (areas chk pl pr : list Area) :
  split_areas dec areas = Ok (chk, pl, pr) ->
  Permutation (chk ++ pl ++ pr) areas.
Proof.
  intros H. pose proof (split_areas_has_dim _ _ _ H) as Hd.
  apply split_areas_Ok in H. destruct H as (-> & -> & ->).
  induction Hd as [|a areas Ha _ IH]; [constructor |].
  simpl. unfold straddles at 1, goes_left at 1, goes_right at 1.
  unfold has_dim in Ha.
  destruct (at_ a (dimension_index dec)) as [i| |]; try discriminate.
  destruct (Contains i (ref_value dec)) eqn:Ec; simpl.
  - now constructor.
  - destruct (ToTheLeft i (ref_value dec)) eqn:El; simpl.
    + rewrite <- Permutation_middle. now constructor.
    + rewrite (classification_exhaustive _ _ Ec El).
      rewrite app_assoc, <- Permutation_middle, <- app_assoc.
      now constructor.
Qed.

Lemma straddles_true (dec : Decision) (a : Area) :
  straddles dec a = true <->
  exists i, at_ a (dimension_index dec) = Ok i
            /\ Contains i (ref_value dec) = true.
Proof.
  unfold straddles. split.
  - destruct (at_ a (dimension_index dec)) as [i| |]; try discriminate. eauto.
  - intros (i & -> & H). exact H.
Qed.

Lemma goes_left_true (dec : Decision) (a : Area) :
  goes_left dec a = true ->
  exists i, at_ a (dimension_index dec) = Ok i /\ right i < ref_value dec.
Proof.
  unfold goes_left.
  destruct (at_ a (dimension_index dec)) as [i| |]; try discriminate.
  intros H. apply andb_true_iff in H. destruct H as [_ H].
  unfold ToTheLeft in H. exists i. split; [reflexivity |].
  destruct (Z.gtb_spec (ref_value dec) (right i)); [lia | discriminate].
Qed.

Lemma goes_right_true (dec : Decision) (a : Area) :
  goes_right dec a = true ->
  exists i, at_ a (dimension_index dec) = Ok i /\ ref_value dec < left i.
Proof.
  unfold goes_right.
  destruct (at_ a (dimension_index dec)) as [i| |]; try discriminate.
  intros H. apply andb_true_iff in H. destruct H as [_ H].
  unfold ToTheRight in H. exists i. split; [reflexivity |].
  now apply Z.ltb_lt.
Qed.

Lemma size_filter_le {A : Type} (f : A -> bool) (v : list A) :
  size (filter f v) <= size v.
Proof. unfold size. pose proof (filter_length_le f v). lia. Qed.

Lemma size_pos_nonempty {A : Type} (v : list A) :
  is_empty v = false <-> 1 <= size v.
Proof.
  destruct v; unfold size; simpl; split; intros; try discriminate; try lia;
    reflexivity.
Qed.

(** ** BuildTree_ *)

Lemma BuildTree__unfold (fuel : nat) (D : Z) (areas_to_add : list Area) :
  BuildTree_ (S fuel) D areas_to_add
  = (_ <- assert (size areas_to_add >? 0) ;;
     if size areas_to_add =? 1 then
       Ok (Node areas_to_add nullptr nullptr Decision_default)
     else
       '(best_decision, _, _) <-
         dimension_loop (Z.to_nat D) 0 (mkDecision (-1) (-1), -1, areas_to_add) ;;
       _ <- assert (negb (dimension_index best_decision =? -1)) ;;
       '(areas_to_check, push_left_areas, push_right_areas) <-
         split_areas best_decision areas_to_add ;;
       if (size push_left_areas =? size areas_to_add)
          || (size push_right_areas =? size areas_to_add)
       then Ok (Node areas_to_add nullptr nullptr Decision_default)
       else
         lchild <- (if negb (is_empty push_left_areas)
                    then BuildTree_ fuel D push_left_areas
                    else Ok nullptr) ;;
         rchild <- (if negb (is_empty push_right_areas)
                    then BuildTree_ fuel D push_right_areas
                    else Ok nullptr) ;;
         Ok (Node areas_to_check lchild rchild best_decision)).
Proof. reflexivity. Qed.

Lemma size_one {A : Type} (v : list A) : size v = 1 -> exists x, v = [x].
Proof.
  destruct v as [|x [|y v]]; unfold size; simpl; intros H; try lia. eauto.
Qed.

(** Every successful call is one of the outcomes of [built]. *)
Lemma BuildTree__built (fuel : nat) :
  forall (D : Z) (areas : list Area) (t : NodePtr),
    BuildTree_ fuel D areas = Ok t ->
    1 <= size areas /\ is_null t = false /\ built D areas t.
Proof.
  induction fuel as [|fuel IH]; intros D areas t H; [discriminate |].
  rewrite BuildTree__unfold in H.
  apply bind_Ok in H. destruct H as (u & Hpos & H).
  apply assert_Ok in Hpos.
  assert (Hn : 1 <= size areas)
    by (destruct (Z.gtb_spec (size areas) 0); [lia | discriminate]).
  split; [exact Hn |].
  destruct (Z.eqb_spec (size areas) 1) as [E1 | E1].
  - inversion H; subst. split; [reflexivity |].
    destruct (size_one _ E1) as [a ->]. constructor.
  - apply bind_Ok in H. destruct H as ([[best best_cut] all_areas] & Hloop & H).
    apply bind_Ok in H. destruct H as (u' & Hchosen & H).
    apply assert_Ok, negb_true_iff, Z.eqb_neq in Hchosen.
    apply bind_Ok in H. destruct H as ([[chk pl] pr] & Hsplit & H).
    destruct ((size pl =? size areas) || (size pr =? size areas)) eqn:Eg.
    + inversion H; subst. split; [reflexivity |].
      apply orb_true_iff in Eg. rewrite !Z.eqb_eq in Eg.
      eapply built_kept; eauto. lia.
    + apply orb_false_iff in Eg. rewrite !Z.eqb_neq in Eg.
      apply bind_Ok in H. destruct H as (l & Hl & H).
      apply bind_Ok in H. destruct H as (r & Hr & H).
      inversion H; subst. split; [reflexivity |].
      eapply built_split; eauto; try tauto; try lia.
      * destruct pl; simpl in Hl.
        -- inversion Hl. constructor.
        -- now apply IH in Hl.
      * destruct pr; simpl in Hr.
        -- inversion Hr. constructor.
        -- now apply IH in Hr.
Qed.

Lemma Forall_arity_filter (D : Z) (f : Area -> bool) (areas : list Area) :
  Forall (arity D) areas -> Forall (arity D) (filter f areas).
Proof.
  rewrite !Forall_forall. intros H a Hin. apply filter_In in Hin.
  apply H. tauto.
Qed.

(** The recursion ends: a budget of the number of areas is enough for the
    build to return a node. *)
Lemma BuildTree__total (D : Z) :
  0 < D ->
  forall (fuel : nat) (areas : list Area),
    Forall (arity D) areas -> 1 <= size areas <= Z.of_nat fuel ->
    exists t, BuildTree_ fuel D areas = Ok t.
Proof.
  intros HD. induction fuel as [|fuel IH]; intros areas Har Hn; [lia |].
  rewrite BuildTree__unfold.
  replace (size areas >? 0) with true
    by (symmetry; apply Z.gtb_lt; lia).
  simpl. destruct (size areas =? 1); [eauto |].
  destruct (dimension_loop_Ok D areas HD Har ltac:(lia))
    as (best & best_cut & all_areas & -> & _ & Hb & _).
  simpl.
  replace (dimension_index best =? -1) with false
    by (symmetry; apply Z.eqb_neq; lia).
  simpl.
  rewrite split_areas_filter
    by (eapply arity_has_dim; eauto).
  simpl.
  destruct ((size (filter (goes_left best) areas) =? size areas)
            || (size (filter (goes_right best) areas) =? size areas)) eqn:Eg;
    [eauto |].
  apply orb_false_iff in Eg. rewrite !Z.eqb_neq in Eg.
  destruct Eg as [El Er].
  pose proof (size_filter_le (goes_left best) areas) as Hl.
  pose proof (size_filter_le (goes_right best) areas) as Hr.
  assert (Hlc : exists l,
             (if negb (is_empty (filter (goes_left best) areas))
              then BuildTree_ fuel D (filter (goes_left best) areas)
              else Ok nullptr) = Ok l).
  { destruct (is_empty (filter (goes_left best) areas)) eqn:Ee; simpl;
      [eauto |].
    apply IH; [now apply Forall_arity_filter |].
    apply size_pos_nonempty in Ee. lia. }
  assert (Hrc : exists r,
             (if negb (is_empty (filter (goes_right best) areas))
              then BuildTree_ fuel D (filter (goes_right best) areas)
              else Ok nullptr) = Ok r).
  { destruct (is_empty (filter (goes_right best) areas)) eqn:Ee; simpl;
      [eauto |].
    apply IH; [now apply Forall_arity_filter |].
    apply size_pos_nonempty in Ee. lia. }
  destruct Hlc as [l ->]. destruct Hrc as [r ->]. simpl. eauto.
Qed.


(** ** What a built tree holds *)

Lemma built_stored (D : Z) (areas : list Area) (t : NodePtr) :
  built D areas t -> Permutation (stored t) areas.
Proof.
  induction 1 as [| a | areas best bc all chk pl pr _ _ _ _ _
                 | areas best bc all chk pl pr l r _ _ _ Hsplit _ _ _ IHl _ IHr];
    simpl.
  - constructor.
  - reflexivity.
  - now rewrite app_nil_r.
  - rewrite IHl, IHr. eapply split_areas_perm, Hsplit.
Qed.

Lemma SumAreasToCheckSizes_stored (t : NodePtr) :
  SumAreasToCheckSizes_node t = length (stored t).
Proof.
  induction t as [| chk l IHl r IHr dec]; simpl; [reflexivity |].
  rewrite !length_app. lia.
Qed.

Lemma built_split_invariant (D : Z) (areas : list Area) (t : NodePtr) :
  built D areas t -> split_invariant t.
Proof.
  induction 1 as [| a | areas best bc all chk pl pr _ _ _ _ _
                 | areas best bc all chk pl pr l r _ _ _ Hsplit _ _ Hl IHl Hr IHr].
  - exact I.
  - simpl. split; [lia | auto].
  - simpl. split; [lia | auto].
  - pose proof (split_areas_perm _ _ _ _ _ Hsplit) as Hperm.
    destruct (split_areas_Ok _ _ _ _ _ Hsplit) as (Hchk & Hpl & Hpr).
    apply built_stored in Hl, Hr.
    split; [| split; assumption]. intros _. repeat split.
    + intros a Hin. apply goes_left_true.
      apply (Permutation_in _ Hl) in Hin. rewrite Hpl in Hin.
      apply filter_In in Hin. tauto.
    + intros a Hin. apply goes_right_true.
      apply (Permutation_in _ Hr) in Hin. rewrite Hpr in Hin.
      apply filter_In in Hin. tauto.
    + intros a i Hin Hat Hc. rewrite Hchk. apply filter_In. split.
      * eapply Permutation_in; [exact Hperm |].
        simpl in Hin. rewrite !in_app_iff in *.
        destruct Hin as [Hin | [Hin | Hin]]; [now left | |].
        -- right. left. eapply Permutation_in; eauto.
        -- right. right. eapply Permutation_in; eauto.
      * apply straddles_true. eauto.
Qed.

(** ** The query on a built tree *)

Lemma FindPoint_Node (chk : list Area) (l r : NodePtr) (dec : Decision)
  (point : list Z) :
  FindPoint (Node chk l r dec) point
  = (found <- CurrentNodeContainsPoint chk point ;;
     if found then Ok true
     else
       valid <- IsValid dec ;;
       if negb valid then
         _ <- assert (is_null l && is_null r) ;; Ok false
       else
         x <- at_ point (dimension_index dec) ;;
         if x <? ref_value dec then find_child l point
         else if x >? ref_value dec then find_child r point
         else Ok false).
Proof. reflexivity. Qed.

Lemma FindPoint_leaf (areas : list Area) (point : list Z) :
  Forall (arity (size point)) areas ->
  FindPoint (Node areas nullptr nullptr Decision_default) point
  = Ok (brute point areas).
Proof.
  intros Har. rewrite FindPoint_Node, CurrentNodeContainsPoint_Brute,
    (BruteContains_brute _ _ Har).
  simpl. now destruct (brute point areas).
Qed.

Lemma IsValid_nonneg (dec : Decision) :
  0 <= dimension_index dec -> IsValid dec = Ok true.
Proof.
  intros H. unfold IsValid.
  replace (dimension_index dec >=? -1) with true
    by (symmetry; apply Z.geb_le; lia).
  simpl. f_equal. apply Z.geb_le. lia.
Qed.

Lemma Forall_arity_perm (D : Z) (u v : list Area) :
  Permutation u v -> Forall (arity D) v -> Forall (arity D) u.
Proof.
  intros Hp Hv. rewrite Forall_forall in *. intros a Hin.
  apply Hv. eapply Permutation_in; eauto.
Qed.

(** On the tree built from [areas] the query is the brute-force scan of
    [areas]. *)
Lemma built_find (D : Z) (areas : list Area) (t : NodePtr) (point : list Z) :
  built D areas t -> Forall (arity (size point)) areas ->
  find_child t point = Ok (brute point areas).
Proof.
  induction 1 as [| a | areas best bc all chk pl pr _ _ _ _ _
                 | areas best bc all chk pl pr l r Hn _ _ Hsplit _ _ _ IHl _ IHr];
    intros Har.
  - reflexivity.
  - now apply FindPoint_leaf.
  - now apply FindPoint_leaf.
  - pose proof (split_areas_perm _ _ _ _ _ Hsplit) as Hperm.
    pose proof (split_areas_has_dim _ _ _ Hsplit) as Hdim.
    destruct (split_areas_Ok _ _ _ _ _ Hsplit) as (Hchk & Hpl & Hpr).
    assert (Hall : Forall (arity (size point)) (chk ++ pl ++ pr))
      by (eapply Forall_arity_perm; eauto).
    apply Forall_app in Hall. destruct Hall as [Hac Hall].
    apply Forall_app in Hall. destruct Hall as [Hal Har'].
    assert (Hd : 0 <= dimension_index best < size point).
    { destruct areas as [|a areas]; [unfold size in Hn; simpl in Hn; lia |].
      inversion Hdim as [|? ? Ha _]; subst. inversion Har as [|? ? Hsa _]; subst.
      apply has_dim_true in Ha. unfold arity in Hsa. lia. }
    destruct (at_defined point _ Hd) as [x Hx].
    rewrite (brute_perm _ _ _ (Permutation_sym Hperm)), !brute_app.
    unfold find_child. rewrite FindPoint_Node, CurrentNodeContainsPoint_Brute,
      (BruteContains_brute _ _ Hac).
    simpl. destruct (brute point chk); [reflexivity |].
    rewrite IsValid_nonneg by lia. simpl. rewrite Hx. simpl.
    assert (Hleft : ref_value best <= x -> brute point pl = false).
    { intros Hle. apply brute_false. intros a Hin.
      rewrite Hpl in Hin. apply filter_In in Hin.
      destruct (goes_left_true _ _ (proj2 Hin)) as (i & Hi & Hlt).
      destruct (covers a point) eqn:Ec; [| reflexivity].
      pose proof (covers_at _ _ _ _ _ Ec Hi Hx) as Hc.
      unfold Contains in Hc. apply andb_true_iff in Hc.
      rewrite !Z.leb_le in Hc. lia. }
    assert (Hright : x <= ref_value best -> brute point pr = false).
    { intros Hle. apply brute_false. intros a Hin.
      rewrite Hpr in Hin. apply filter_In in Hin.
      destruct (goes_right_true _ _ (proj2 Hin)) as (i & Hi & Hlt).
      destruct (covers a point) eqn:Ec; [| reflexivity].
      pose proof (covers_at _ _ _ _ _ Ec Hi Hx) as Hc.
      unfold Contains in Hc. apply andb_true_iff in Hc.
      rewrite !Z.leb_le in Hc. lia. }
    destruct (Z.ltb_spec x (ref_value best)).
    + rewrite (IHl Hal), Hright by lia. now rewrite orb_false_r.
    + destruct (Z.gtb_spec x (ref_value best)).
      * rewrite (IHr Har'), Hleft by lia. reflexivity.
      * rewrite Hleft, Hright by lia. reflexivity.
Qed.

(** ** The index *)

Lemma index_ok_new (D : Z) : index_ok (DecisionTree_new D).
Proof. repeat split; try constructor; discriminate. Qed.

Lemma RebuildTree_Ok (this this' : DecisionTree) :
  RebuildTree this = Ok this' ->
  dimension_ this' = dimension_ this /\ areas_ this' = areas_ this /\
  dirty_ this' = dirty_ this /\
  BuildTree_ (S (length (areas_ this))) (dimension_ this) (areas_ this)
  = Ok (root_ this').
Proof.
  unfold RebuildTree. intros H. apply bind_Ok in H.
  destruct H as (root & Hroot & H). inversion H; subst. simpl. auto.
Qed.

Lemma RebuildTreeIfDirty_Ok (this this' : DecisionTree) :
  index_ok this -> RebuildTreeIfDirty this = Ok this' ->
  dimension_ this' = dimension_ this /\ areas_ this' = areas_ this /\
  dirty_ this' = false /\
  BuildTree_ (S (length (areas_ this))) (dimension_ this) (areas_ this)
  = Ok (root_ this').
Proof.
  intros (_ & _ & Hclean) H. unfold RebuildTreeIfDirty in H.
  destruct (dirty_ this) eqn:Ed.
  - apply bind_Ok in H. destruct H as (this1 & H1 & H).
    apply RebuildTree_Ok in H1. destruct H1 as (Hd & Ha & _ & Hb).
    inversion H; subst. simpl. auto.
  - inversion H; subst. auto.
Qed.

Lemma RebuildTree_defined (this : DecisionTree) :
  0 < dimension_ this -> index_ok this -> areas_ this <> [] ->
  exists this', RebuildTree this = Ok this'.
Proof.
  intros HD (Har & _) Hne. unfold RebuildTree.
  destruct (BuildTree__total (dimension_ this) HD (S (length (areas_ this)))
              (areas_ this) Har) as [root ->].
  - unfold size. destruct (areas_ this); [contradiction | simpl length; lia].
  - simpl. eauto.
Qed.

Lemma RebuildTreeIfDirty_defined (this : DecisionTree) :
  0 < dimension_ this -> index_ok this -> areas_ this <> [] ->
  exists this', RebuildTreeIfDirty this = Ok this'.
Proof.
  intros HD Hok Hne. unfold RebuildTreeIfDirty.
  destruct (dirty_ this); [| eauto].
  destruct (RebuildTree_defined this HD Hok Hne) as [this' ->].
  simpl. eauto.
Qed.

Lemma step_index_ok (this this' : DecisionTree) (c : call) :
  index_ok this -> step this c = Ok this' ->
  index_ok this' /\ dimension_ this' = dimension_ this.
Proof.
  intros Hok H. destruct c as [area | point | |]; simpl in H.
  - unfold AddArea in H. apply bind_Ok in H. destruct H as (u & Ha & H).
    apply assert_Ok, Z.eqb_eq in Ha. inversion H; subst. simpl.
    split; [| reflexivity]. destruct Hok as (Har & _).
    split; [| split]; simpl.
    + apply Forall_app. split; [exact Har | now constructor].
    + reflexivity.
    + discriminate.
  - apply bind_Ok in H. destruct H as ([found this1] & Hc & H).
    inversion H; subst. unfold ContainsPoint in Hc.
    apply bind_Ok in Hc. destruct Hc as (u & _ & Hc).
    apply bind_Ok in Hc. destruct Hc as (this1 & Hr & Hc).
    apply bind_Ok in Hc. destruct Hc as (b & _ & Hc).
    inversion Hc; subst.
    destruct (RebuildTreeIfDirty_Ok _ _ Hok Hr) as (Hd & Ha & Hcl & Hb).
    split; [| exact Hd]. destruct Hok as (Har & _).
    split; [| split]; rewrite ?Hd, ?Ha.
    + exact Har.
    + intros E. rewrite E in Hb. discriminate.
    + intros _. exact Hb.
  - destruct (RebuildTree_Ok _ _ H) as (Hd & Ha & Hdirty & Hb).
    split; [| exact Hd]. destruct Hok as (Har & Hempty & _).
    split; [| split]; rewrite ?Hd, ?Ha, ?Hdirty.
    + exact Har.
    + exact Hempty.
    + intros _. exact Hb.
  - destruct (RebuildTreeIfDirty_Ok _ _ Hok H) as (Hd & Ha & Hcl & Hb).
    split; [| exact Hd]. destruct Hok as (Har & _).
    split; [| split]; rewrite ?Hd, ?Ha.
    + exact Har.
    + intros E. rewrite E in Hb. discriminate.
    + intros _. exact Hb.
Qed.

Lemma run_index_ok (calls : list call) :
  forall this this' : DecisionTree,
    index_ok this -> run this calls = Ok this' ->
    index_ok this' /\ dimension_ this' = dimension_ this.
Proof.
  induction calls as [|c calls IH]; intros this this' Hok H; simpl in H.
  - inversion H; subst. auto.
  - apply bind_Ok in H. destruct H as (this1 & Hs & H).
    destruct (step_index_ok _ _ _ Hok Hs) as [Hok1 Hd1].
    destruct (IH _ _ Hok1 H) as [Hok' Hd']. split; [exact Hok' | congruence].
Qed.

Lemma reachable_index_ok (D : Z) (calls : list call) (this : DecisionTree) :
  run (DecisionTree_new D) calls = Ok this ->
  index_ok this /\ dimension_ this = D.
Proof. intros H. exact (run_index_ok calls _ _ (index_ok_new D) H). Qed.

(** The query of an index in good standing that holds areas. *)
Lemma ContainsPoint_brute (this : DecisionTree) (point : list Z) :
  0 < dimension_ this -> index_ok this -> areas_ this <> [] ->
  size point = dimension_ this ->
  exists this',
    ContainsPoint this point = Ok (brute point (areas_ this), this') /\
    areas_ this' = areas_ this /\ dirty_ this' = false.
Proof.
  intros HD Hok Hne Hp. unfold ContainsPoint.
  replace (size point =? dimension_ this) with true
    by (symmetry; now apply Z.eqb_eq).
  simpl.
  destruct (RebuildTreeIfDirty_defined this HD Hok Hne) as [this' Hr].
  rewrite Hr. simpl.
  destruct (RebuildTreeIfDirty_Ok _ _ Hok Hr) as (Hd & Ha & Hcl & Hb).
  apply BuildTree__built in Hb. destruct Hb as (_ & Hnn & Hb).
  assert (Hfind : FindPoint (root_ this') point
                  = Ok (brute point (areas_ this))).
  { erewrite <- built_find; [| exact Hb |].
    - destruct (root_ this'); [discriminate | reflexivity].
    - rewrite Hp. apply Hok. }
  rewrite Hfind. simpl. eauto.
Qed.

Lemma RebuildTreeIfDirty_areas (this this' : DecisionTree) :
  RebuildTreeIfDirty this = Ok this' -> areas_ this' = areas_ this.
Proof.
  unfold RebuildTreeIfDirty. destruct (dirty_ this); intros H.
  - apply bind_Ok in H. destruct H as (this1 & Hr & H).
    apply RebuildTree_Ok in Hr. destruct Hr as (_ & Ha & _).
    inversion H; subst. exact Ha.
  - now inversion H.
Qed.

Lemma ContainsPoint_areas (this this' : DecisionTree) (point : list Z)
  (found : bool) :
  ContainsPoint this point = Ok (found, this') -> areas_ this' = areas_ this.
Proof.
  unfold ContainsPoint. intros H.
  apply bind_Ok in H. destruct H as (u & _ & H).
  apply bind_Ok in H. destruct H as (this1 & Hr & H).
  apply bind_Ok in H. destruct H as (b & _ & H). inversion H; subst.
  eapply RebuildTreeIfDirty_areas, Hr.
Qed.

Lemma step_areas (this this' : DecisionTree) (c : call) :
  step this c = Ok this' ->
  areas_ this' = areas_ this ++ areas_added [c].
Proof.
  intros H. destruct c as [area | point | |]; simpl in H |- *;
    rewrite ?app_nil_r.
  - unfold AddArea in H. apply bind_Ok in H. destruct H as (u & _ & H).
    now inversion H.
  - apply bind_Ok in H. destruct H as ([found this1] & Hc & H).
    inversion H; subst. eapply ContainsPoint_areas, Hc.
  - now apply RebuildTree_Ok in H.
  - now apply RebuildTreeIfDirty_areas.
Qed.

(** The registered areas after a run: those before it, then the areas of
    its [AddArea] calls in order. *)
Lemma run_areas_added (calls : list call) :
  forall this this' : DecisionTree,
    run this calls = Ok this' ->
    areas_ this' = areas_ this ++ areas_added calls.
Proof.
  induction calls as [|c calls IH]; intros this this' H; simpl in H.
  - inversion H; subst. simpl. now rewrite app_nil_r.
  - apply bind_Ok in H. destruct H as (this1 & Hs & H).
    rewrite (IH _ _ H), (step_areas _ _ _ Hs).
    rewrite <- app_assoc. f_equal. destruct c; reflexivity.
Qed.

(** * The claims *)

(** ** Queries *)

(** C1. On every index of dimension [D >= 1] reached by calls of the
    interface (so every registered area passed the arity check of
    [AddArea]) and holding at least one area, [ContainsPoint] on a point of
    [D] coordinates returns, and returns the boolean that the linear scan
    [BruteContains] returns over the registered areas. *)
Theorem ContainsPoint_equals_BruteContains
  (D : Z) (calls : list call) (this : DecisionTree) (point : list Z) :
  0 < D ->
  run (DecisionTree_new D) calls = Ok this ->
  GetAllAreas this <> [] ->
  size point = D ->
  exists found this',
    ContainsPoint this point = Ok (found, this') /\
    BruteContains point (GetAllAreas this) = Ok found.
Proof.
  intros HD Hrun Hne Hp.
  destruct (reachable_index_ok _ _ _ Hrun) as [Hok Hdim].
  destruct (ContainsPoint_brute this point) as (this' & Hc & _);
    try congruence; try assumption.
  exists (brute point (areas_ this)), this'. split; [exact Hc |].
  apply BruteContains_brute. rewrite Hp, <- Hdim. apply Hok.
Qed.

Lemma ContainsPoint_equals_BruteContains_witness :
  exists found this',
    ContainsPoint four_squares [3; 3] = Ok (found, this') /\
    BruteContains [3; 3] (GetAllAreas four_squares) = Ok found.
Proof.
  apply (ContainsPoint_equals_BruteContains 2 four_squares_calls);
    [lia | reflexivity | discriminate | reflexivity].
Defined.

(** C2. If a registered area contains the point in every dimension,
    [ContainsPoint] returns true. *)
Theorem containment_soundness
  (D : Z) (calls : list call) (this : DecisionTree) (R : Area)
  (point : list Z) :
  0 < D ->
  run (DecisionTree_new D) calls = Ok this ->
  In R (GetAllAreas this) ->
  Forall2 (fun i x => Contains i x = true) R point ->
  exists this', ContainsPoint this point = Ok (true, this').
Proof.
  intros HD Hrun Hin Hall.
  destruct (reachable_index_ok _ _ _ Hrun) as [Hok Hdim].
  assert (HR : arity (dimension_ this) R).
  { destruct Hok as (Har & _). rewrite Forall_forall in Har. now apply Har. }
  assert (Hp : size point = dimension_ this).
  { unfold arity in HR. rewrite <- HR. unfold size.
    now rewrite (Forall2_length Hall). }
  destruct (ContainsPoint_brute this point) as (this' & Hc & _);
    try congruence; try assumption.
  { intros E. unfold GetAllAreas in Hin. rewrite E in Hin. contradiction. }
  exists this'. rewrite Hc. do 2 f_equal.
  apply existsb_exists. exists R. split; [exact Hin |].
  now apply covers_Forall2.
Qed.

Lemma containment_soundness_witness :
  exists this', ContainsPoint four_squares [15; 1] = Ok (true, this').
Proof.
  apply (containment_soundness 2 four_squares_calls four_squares
           [mkInterval 11 15; mkInterval 1 5] [15; 1]).
  - lia.
  - reflexivity.
  - simpl. tauto.
  - repeat constructor.
Defined.

(** C3. At a node with a valid decision [FindPoint] returns true when the
    scan of the node's bucket finds the point; when it does not, a
    coordinate strictly below the threshold sends the query to the left
    child, strictly above to the right child, an absent child giving false,
    and a coordinate equal to the threshold gives false with no descent. *)
Theorem FindPoint_routing
  (chk : list Area) (l r : NodePtr) (dec : Decision) (point : list Z) :
  IsValid dec = Ok true ->
  (CurrentNodeContainsPoint chk point = Ok true ->
   FindPoint (Node chk l r dec) point = Ok true) /\
  (CurrentNodeContainsPoint chk point = Ok false ->
   forall x, at_ point (dimension_index dec) = Ok x ->
     (x < ref_value dec ->
      FindPoint (Node chk l r dec) point
      = match l with
        | nullptr => Ok false
        | Node _ _ _ _ => FindPoint l point
        end) /\
     (x > ref_value dec ->
      FindPoint (Node chk l r dec) point
      = match r with
        | nullptr => Ok false
        | Node _ _ _ _ => FindPoint r point
        end) /\
     (x = ref_value dec ->
      FindPoint (Node chk l r dec) point = Ok false)).
Proof.
  intros Hv. split.
  - intros Hscan. rewrite FindPoint_Node, Hscan. reflexivity.
  - intros Hscan x Hx. rewrite FindPoint_Node, Hscan, Hv, Hx. simpl.
    repeat split; intros Hcmp.
    + now rewrite (proj2 (Z.ltb_lt _ _) Hcmp).
    + rewrite (proj2 (Z.ltb_ge _ _)) by lia.
      now rewrite (proj2 (Z.gtb_gt _ _) Hcmp).
    + subst x. rewrite Z.ltb_irrefl.
      destruct (Z.gtb_spec (ref_value dec) (ref_value dec)); [lia | reflexivity].
Qed.

Lemma FindPoint_routing_witness :
  FindPoint (Node [[mkInterval 7 10]]
                  (Node [[mkInterval 0 5]] nullptr nullptr Decision_default)
                  nullptr (mkDecision 0 6)) [6]
  = Ok false.
Proof.
  refine (proj2 (proj2 (proj2 (FindPoint_routing
            [[mkInterval 7 10]]
            (Node [[mkInterval 0 5]] nullptr nullptr Decision_default)
            nullptr (mkDecision 0 6) [6] _) _ 6 _)) _); reflexivity.
Defined.

(** C8. On an index that holds no area [ContainsPoint] returns no boolean:
    the run ends in the failed assertion of [BuildTree_]. *)
Theorem ContainsPoint_without_areas_faults
  (D : Z) (calls : list call) (this : DecisionTree) (point : list Z) :
  run (DecisionTree_new D) calls = Ok this ->
  GetAllAreas this = [] ->
  ContainsPoint this point = Fault.
Proof.
  intros Hrun Hempty.
  destruct (reachable_index_ok _ _ _ Hrun) as [(_ & Hdirty & _) _].
  unfold GetAllAreas in Hempty. unfold ContainsPoint, RebuildTreeIfDirty.
  rewrite (Hdirty Hempty). unfold RebuildTree. rewrite Hempty.
  destruct (size point =? dimension_ this); reflexivity.
Qed.

Lemma ContainsPoint_without_areas_faults_witness :
  ContainsPoint (DecisionTree_new 2) [3; 3] = Fault.
Proof.
  apply (ContainsPoint_without_areas_faults 2 []); reflexivity.
Defined.

(** ** The shape of the built tree *)

(** C5. On an index of dimension [D >= 1] holding at least one area, the
    registered areas are the areas of the [AddArea] calls made on it; a
    rebuild, explicit or through [RebuildTreeIfDirty], returns, leaves the
    registered areas as they are, and after it [SumAreasToCheckSizes] is
    the number of areas inserted, and the buckets of the tree hold the
    inserted areas, each once. *)
Theorem bucket_conservation
  (D : Z) (calls : list call) (this : DecisionTree) :
  0 < D ->
  run (DecisionTree_new D) calls = Ok this ->
  GetAllAreas this <> [] ->
  GetAllAreas this = areas_added calls /\
  (exists this',
     RebuildTree this = Ok this' /\
     GetAllAreas this' = GetAllAreas this /\
     SumAreasToCheckSizes this' = Ok (length (areas_added calls)) /\
     Permutation (stored (root_ this')) (areas_added calls)) /\
  (exists this',
     RebuildTreeIfDirty this = Ok this' /\
     GetAllAreas this' = GetAllAreas this /\
     SumAreasToCheckSizes this' = Ok (length (areas_added calls)) /\
     Permutation (stored (root_ this')) (areas_added calls)).
Proof.
  intros HD Hrun Hne.
  destruct (reachable_index_ok _ _ _ Hrun) as [Hok Hdim].
  pose proof (run_areas_added calls _ _ Hrun) as Hadded. simpl in Hadded.
  unfold GetAllAreas in *. split; [exact Hadded |].
  assert (Hconserved : forall this',
    BuildTree_ (S (length (areas_ this))) (dimension_ this) (areas_ this)
    = Ok (root_ this') ->
    SumAreasToCheckSizes this' = Ok (length (areas_added calls)) /\
    Permutation (stored (root_ this')) (areas_added calls)).
  { intros this' Hb. apply BuildTree__built in Hb.
    destruct Hb as (_ & Hnn & Hb). apply built_stored in Hb.
    rewrite Hadded in Hb. unfold SumAreasToCheckSizes.
    split; [| exact Hb].
    destruct (root_ this') eqn:Er; [discriminate |].
    rewrite SumAreasToCheckSizes_stored.
    now rewrite (Permutation_length Hb). }
  split.
  - destruct (RebuildTree_defined this) as [this' Hr];
      try congruence; try assumption.
    exists this'. split; [exact Hr |].
    destruct (RebuildTree_Ok _ _ Hr) as (_ & Ha & _ & Hb). auto.
  - destruct (RebuildTreeIfDirty_defined this) as [this' Hr];
      try congruence; try assumption.
    exists this'. split; [exact Hr |].
    destruct (RebuildTreeIfDirty_Ok _ _ Hok Hr) as (_ & Ha & _ & Hb). auto.
Qed.

Lemma bucket_conservation_witness :
  GetAllAreas four_squares = areas_added four_squares_calls /\
  (exists this',
     RebuildTree four_squares = Ok this' /\
     GetAllAreas this' = GetAllAreas four_squares /\
     SumAreasToCheckSizes this' = Ok (length (areas_added four_squares_calls))
     /\ Permutation (stored (root_ this')) (areas_added four_squares_calls))
  /\
  (exists this',
     RebuildTreeIfDirty four_squares = Ok this' /\
     GetAllAreas this' = GetAllAreas four_squares /\
     SumAreasToCheckSizes this' = Ok (length (areas_added four_squares_calls))
     /\ Permutation (stored (root_ this')) (areas_added four_squares_calls)).
Proof.
  apply (bucket_conservation 2 four_squares_calls);
    [lia | reflexivity | discriminate].
Defined.

(** C10. In a tree returned by [BuildTree_], at every node with a valid
    decision of dimension [d] and threshold [t]: the areas stored in the
    left subtree have their right bound at [d] below [t], the areas stored
    in the right subtree have their left bound at [d] above [t], and every
    area handed to the node whose interval at [d] contains [t] is in the
    node's own bucket. The areas handed to a node are the areas stored
    under it. *)
Theorem BuildTree__split_invariant
  (fuel : nat) (D : Z) (areas : list Area) (t : NodePtr) :
  BuildTree_ fuel D areas = Ok t ->
  Permutation (stored t) areas /\ split_invariant t.
Proof.
  intros H. apply BuildTree__built in H. destruct H as (_ & _ & H).
  split; [eapply built_stored | eapply built_split_invariant]; exact H.
Qed.

Lemma BuildTree__split_invariant_witness :
  Permutation (stored (root_ four_squares)) (areas_ four_squares) /\
  split_invariant (root_ four_squares).
Proof.
  apply (BuildTree__split_invariant 5 2); reflexivity.
Defined.

(** C6, as the code has it. With [D = 1] and the areas [0,5] and [6,10],
    the decision of the root is dimension 0 at threshold 6; [6,10] contains
    the threshold and stays in the bucket of the root, [0,5] is the leaf on
    the left and there is no right child; the points 5 and 6 are found and
    100 is not. *)
Theorem two_intervals_tree :
  exists this,
    RebuildTree two_intervals = Ok this /\
    root_ this
    = Node [[mkInterval 6 10]]
           (Node [[mkInterval 0 5]] nullptr nullptr Decision_default)
           nullptr (mkDecision 0 6) /\
    (exists this', ContainsPoint this [5] = Ok (true, this')) /\
    (exists this', ContainsPoint this [6] = Ok (true, this')) /\
    (exists this', ContainsPoint this [100] = Ok (false, this')).
Proof.
  eexists. split; [reflexivity |]. split; [reflexivity |].
  repeat split; eexists; reflexivity.
Qed.

(** C6, as the claim has it, fails: the root does not have an empty bucket
    with the two areas in two different children. *)
Lemma two_intervals_not_separated :
  ~ (exists this l r dec,
       RebuildTree two_intervals = Ok this /\
       root_ this = Node [] l r dec /\
       is_null l = false /\ is_null r = false /\
       ((In [mkInterval 0 5] (stored l) /\ In [mkInterval 6 10] (stored r)) \/
        (In [mkInterval 0 5] (stored r) /\ In [mkInterval 6 10] (stored l))) /\
       (exists this', ContainsPoint this [5] = Ok (true, this')) /\
       (exists this', ContainsPoint this [6] = Ok (true, this')) /\
       (exists this', ContainsPoint this [100] = Ok (false, this'))).
Proof.
  intros (this & l & r & dec & Hr & Hroot & _).
  vm_compute in Hr. inversion Hr; subst this. discriminate.
Qed.

(** ** The dirty flag *)

Lemma AddArea_sets_dirty (this this' : DecisionTree) (area : Area) :
  AddArea this area = Ok this' -> dirty_ this' = true.
Proof.
  unfold AddArea. intros H. apply bind_Ok in H. destruct H as (u & _ & H).
  inversion H; subst; reflexivity.
Qed.

Lemma RebuildTreeIfDirty_clears_dirty (this this' : DecisionTree) :
  RebuildTreeIfDirty this = Ok this' -> dirty_ this' = false.
Proof.
  unfold RebuildTreeIfDirty. destruct (dirty_ this) eqn:Ed; intros H.
  - apply bind_Ok in H. destruct H as (this1 & _ & H).
    inversion H; subst; reflexivity.
  - inversion H; subst; exact Ed.
Qed.

Lemma RebuildTree_keeps_dirty (this this' : DecisionTree) :
  RebuildTree this = Ok this' -> dirty_ this' = dirty_ this.
Proof. intros H. now apply RebuildTree_Ok in H. Qed.

(** C7, where the code leaves it: an explicit [RebuildTree] after an
    insertion completes and the index is still dirty. *)
Theorem RebuildTree_leaves_dirty :
  exists this,
    run (DecisionTree_new 1) [CallAddArea [mkInterval 0 10]; CallRebuildTree]
    = Ok this /\
    root_ this = Node [[mkInterval 0 10]] nullptr nullptr Decision_default /\
    dirty_ this = true.
Proof. eexists. repeat split. Qed.

(** ** The choice of the decision *)

Lemma int_add_in_range (x : Z) :
  INT_MIN <= x < INT_MAX -> int_add x 1 = x + 1.
Proof.
  unfold INT_MIN, INT_MAX, int_add, wrap_int.
  change (2 ^ 31) with 2147483648. change (2 ^ 32) with 4294967296.
  intros H. rewrite Z.mod_small by lia. lia.
Qed.

Lemma median_right_In (d : Z) (areas : list Area) :
  1 <= size areas -> In (median_right d areas) (rights d areas).
Proof.
  intros Hn. unfold median_right.
  eapply Permutation_in.
  - unfold rights. apply Permutation_map. apply (sort_perm (right_at d)).
  - apply nth_In. unfold rights. rewrite length_map.
    rewrite (Permutation_length (sort_perm (right_at d) areas)).
    pose proof (median_index_range _ Hn) as Hr. unfold size in Hr at 2.
    apply Nat2Z.inj_lt. rewrite Z2Nat.id; tauto.
Qed.

Lemma right_at_in_range (D d : Z) (a : Area) :
  arity D a -> 0 <= d < D -> increment_in_range a ->
  INT_MIN <= right_at d a < INT_MAX.
Proof.
  intros Ha Hd Hr. unfold arity in Ha.
  destruct (at_defined a d) as [i Hi]; [lia |].
  rewrite (right_at_Ok _ _ _ Hi).
  unfold increment_in_range in Hr. rewrite Forall_forall in Hr.
  apply Hr. eapply at_In, Hi.
Qed.

Lemma candidate_of_threshold (D d : Z) (areas : list Area) :
  Forall (arity D) areas -> Forall increment_in_range areas ->
  1 <= size areas -> 0 <= d < D ->
  candidate_of d areas = mkDecision d (median_right d areas + 1).
Proof.
  intros Har Hrg Hn Hd. unfold candidate_of. f_equal.
  apply int_add_in_range.
  pose proof (median_right_In d areas Hn) as Hin.
  unfold rights in Hin. apply in_map_iff in Hin.
  destruct Hin as (a & <- & Hin).
  rewrite Forall_forall in Har, Hrg.
  eapply right_at_in_range; eauto.
Qed.

(** C9. Given two or more areas of arity [D >= 1], the candidate of each
    dimension [d] is the decision at [d] whose threshold is one plus (in
    [int]; in the integers whenever that element is below [INT_MAX]) the
    element at index [(n-1)/2] of the ascending sequence of the right
    bounds at [d], and the decision the loop retains is the candidate whose
    cut-through count is least over all dimensions, the earliest dimension
    winning ties. *)
Theorem retained_decision_least_cut_through (D : Z) (areas : list Area) :
  0 < D ->
  Forall (arity D) areas ->
  size areas >= 2 ->
  (forall d all_areas, 0 <= d < D -> Permutation all_areas areas ->
     exists sorted_areas,
       candidate d all_areas = Ok (sorted_areas, candidate_of d areas)) /\
  (forall d sorted, 0 <= d < D ->
     Permutation sorted (rights d areas) -> Sorted Z.le sorted ->
     let median := nth (Z.to_nat ((size areas - 1) / 2)) sorted 0 in
     candidate_of d areas = mkDecision d (int_add median 1) /\
     (INT_MIN <= median < INT_MAX -> int_add median 1 = median + 1)) /\
  exists best best_cut all_areas,
    dimension_loop (Z.to_nat D) 0 (mkDecision (-1) (-1), -1, areas)
    = Ok (best, best_cut, all_areas) /\
    0 <= dimension_index best < D /\
    best = candidate_of (dimension_index best) areas /\
    best_cut = cut_through best areas /\
    forall d, 0 <= d < D ->
      best_cut <= cut_through (candidate_of d areas) areas /\
      (d < dimension_index best ->
       best_cut < cut_through (candidate_of d areas) areas).
Proof.
  intros HD Har Hn. split; [| split].
  - intros d all_areas Hd Hp. eexists. apply candidate_Ok.
    + eapply arity_has_dim; eauto.
    + exact Hp.
    + lia.
  - intros d sorted Hd Hp Hs median. split.
    + unfold candidate_of, median_right, median.
      rewrite (median_key_unique d areas sorted Hp Hs).
      now rewrite Z.quot_div_nonneg by lia.
    + apply int_add_in_range.
  - destruct (dimension_loop_Ok D areas HD Har ltac:(lia))
      as (best & best_cut & all_areas & Hrun & _ & Hb & Hc & Hcut & Hmin).
    exists best, best_cut, all_areas. auto.
Qed.

Lemma retained_decision_least_cut_through_witness :
  (forall d sorted, 0 <= d < 2 ->
     Permutation sorted (rights d (areas_ four_squares)) ->
     Sorted Z.le sorted ->
     let median :=
       nth (Z.to_nat ((size (areas_ four_squares) - 1) / 2)) sorted 0 in
     candidate_of d (areas_ four_squares)
     = mkDecision d (int_add median 1) /\
     (INT_MIN <= median < INT_MAX -> int_add median 1 = median + 1)) /\
  exists best best_cut all_areas,
    dimension_loop (Z.to_nat 2) 0
      (mkDecision (-1) (-1), -1, areas_ four_squares)
    = Ok (best, best_cut, all_areas) /\
    0 <= dimension_index best < 2 /\
    best = candidate_of (dimension_index best) (areas_ four_squares) /\
    best_cut = cut_through best (areas_ four_squares) /\
    forall d, 0 <= d < 2 ->
      best_cut
      <= cut_through (candidate_of d (areas_ four_squares))
                     (areas_ four_squares) /\
      (d < dimension_index best ->
       best_cut
       < cut_through (candidate_of d (areas_ four_squares))
                     (areas_ four_squares)).
Proof.
  apply (retained_decision_least_cut_through 2 (areas_ four_squares)).
  - lia.
  - repeat constructor.
  - vm_compute. discriminate.
Defined.

(** ** Termination *)





Section Identical.
Variables (areas : list Area) (a : Area).
Hypothesis Hsame : forall a', In a' areas -> a' = a.
Hypothesis Hn : 1 <= size areas.




End Identical.





(** * Further properties of the code *)

(** ** Interval *)

(** X1. For every interval and every [x] one of [Contains], [ToTheLeft],
    [ToTheRight] holds, so the [assert(false)] branches of the two
    classification loops are never reached; when [left <= right] exactly one
    of them holds. *)
Theorem Interval_trichotomy (i : Interval) (x : Z) :
  (Contains i x || ToTheLeft i x || ToTheRight i x = true) /\
  (left i <= right i ->
   (Contains i x = true -> ToTheLeft i x = false /\ ToTheRight i x = false) /\
   (ToTheLeft i x = true -> ToTheRight i x = false)).
Proof.
  unfold Contains, ToTheLeft, ToTheRight.
  destruct (Z.leb_spec (left i) x), (Z.leb_spec x (right i)),
           (Z.gtb_spec x (right i)), (Z.ltb_spec x (left i));
    simpl; repeat split; intros; try reflexivity; try discriminate; lia.
Qed.

Lemma Interval_trichotomy_witness :
  (Contains (mkInterval 0 5) 6 || ToTheLeft (mkInterval 0 5) 6
   || ToTheRight (mkInterval 0 5) 6 = true) /\
  (left (mkInterval 0 5) <= right (mkInterval 0 5) ->
   (Contains (mkInterval 0 5) 6 = true ->
    ToTheLeft (mkInterval 0 5) 6 = false /\
    ToTheRight (mkInterval 0 5) 6 = false) /\
   (ToTheLeft (mkInterval 0 5) 6 = true ->
    ToTheRight (mkInterval 0 5) 6 = false)).
Proof. exact (Interval_trichotomy (mkInterval 0 5) 6). Defined.

(** ** The scan of an area of any length *)

Lemma area_contains_from_any (pre suf : Area) (coords : list Z) :
  area_contains_from (pre ++ suf) (size pre) coords
  = if (length coords <=? length suf)%nat
    then Ok (covers (firstn (length coords) suf) coords)
    else if covers suf (firstn (length suf) coords) then Fault else Ok false.
Proof.
  revert pre suf. induction coords as [|x coords IH]; intros pre suf.
  - reflexivity.
  - destruct suf as [|i suf].
    + simpl. unfold at_. rewrite app_nil_r.
      destruct (size pre <? 0); [reflexivity |].
      unfold size. rewrite Nat2Z.id.
      now rewrite (proj2 (nth_error_None pre (length pre))) by lia.
    + simpl area_contains_from. rewrite at_app_cons. simpl bind.
      replace (size pre + 1) with (size (pre ++ [i]))
        by (rewrite size_app; reflexivity).
      replace (pre ++ i :: suf) with ((pre ++ [i]) ++ suf)
        by (now rewrite <- app_assoc).
      rewrite IH. simpl length. simpl firstn. simpl covers.
      change (S (length coords) <=? S (length suf))%nat
        with (length coords <=? length suf)%nat.
      destruct (Contains i x); simpl; [reflexivity |].
      now destruct (length coords <=? length suf)%nat.
Qed.

(** X2. The scan of one area reads [area[i]] only while every earlier
    coordinate matched. An area with at least as many intervals as the
    point has coordinates is tested on its first intervals only; a shorter
    area gives false if one of its intervals misses its coordinate, and the
    read past its end happens only when all of them match. *)
Theorem area_contains_point_any_length (area : Area) (point : list Z) :
  area_contains_point area point
  = if (length point <=? length area)%nat
    then Ok (covers (firstn (length point) area) point)
    else if covers area (firstn (length area) point) then Fault
         else Ok false.
Proof. exact (area_contains_from_any [] area point). Qed.

(** ** FindPoint on any tree *)

Lemma CurrentNodeContainsPoint_true (areas : list Area) (point : list Z) :
  CurrentNodeContainsPoint areas point = Ok true ->
  exists a, In a areas /\ area_contains_point a point = Ok true.
Proof.
  induction areas as [|a areas IH]; simpl; intros H; [discriminate |].
  apply bind_Ok in H. destruct H as ([|] & Ha & H).
  - exists a. split; [now left | exact Ha].
  - destruct (IH H) as (b & Hin & Hb). exists b. split; [now right | exact Hb].
Qed.

Lemma find_child_true (child : NodePtr) (point : list Z) :
  find_child child point = Ok true -> FindPoint child point = Ok true.
Proof. destruct child; [discriminate | trivial]. Qed.

(** X3. Whatever the tree, [FindPoint] answers true only when the scan of
    an area stored in the tree answers true: the routing can lose a match,
    it cannot invent one. *)
Theorem FindPoint_true_stored (t : NodePtr) (point : list Z) :
  FindPoint t point = Ok true ->
  exists a, In a (stored t) /\ area_contains_point a point = Ok true.
Proof.
  induction t as [| chk l IHl r IHr dec]; intros H; [discriminate |].
  rewrite FindPoint_Node in H.
  apply bind_Ok in H. destruct H as ([|] & Hscan & H).
  - destruct (CurrentNodeContainsPoint_true _ _ Hscan) as (a & Hin & Ha).
    exists a. split; [| exact Ha]. simpl. apply in_app_iff. now left.
  - apply bind_Ok in H. destruct H as (valid & _ & H).
    destruct valid; simpl in H.
    + apply bind_Ok in H. destruct H as (x & _ & H).
      destruct (x <? ref_value dec).
      * apply find_child_true in H.
        destruct (IHl H) as (a & Hin & Ha). exists a. split; [| exact Ha].
        simpl. rewrite !in_app_iff. right. now left.
      * destruct (x >? ref_value dec); [| discriminate].
        apply find_child_true in H.
        destruct (IHr H) as (a & Hin & Ha). exists a. split; [| exact Ha].
        simpl. rewrite !in_app_iff. right. now right.
    + apply bind_Ok in H. destruct H as (u & _ & H). discriminate.
Qed.

Lemma FindPoint_true_stored_witness :
  exists a,
    In a (stored (root_ four_squares)) /\
    area_contains_point a [3; 3] = Ok true.
Proof.
  apply (FindPoint_true_stored (root_ four_squares) [3; 3]). reflexivity.
Defined.

(** ** The registered areas *)

(** X4. The list of registered areas only grows, at its end: after any run
    of calls [GetAllAreas] is what it was before followed by the areas of
    the [AddArea] calls of the run, in the order of the calls. Rebuilds and
    queries leave it as it is. *)
Theorem GetAllAreas_appends (calls : list call) :
  forall this this' : DecisionTree,
    run this calls = Ok this' ->
    GetAllAreas this' = GetAllAreas this ++ areas_added calls.
Proof. unfold GetAllAreas. exact (run_areas_added calls). Qed.

Lemma GetAllAreas_appends_witness :
  GetAllAreas four_squares
  = GetAllAreas (DecisionTree_new 2) ++ areas_added four_squares_calls.
Proof.
  apply (GetAllAreas_appends four_squares_calls). reflexivity.
Defined.

(** ** Queries and insertions on the index *)

(** X5. On an index of dimension [D >= 1] that holds an area,
    [ContainsPoint] returns a boolean exactly for the points of [D]
    coordinates; any other point ends the run at the arity assertion. *)
Theorem ContainsPoint_returns_iff_arity
  (D : Z) (calls : list call) (this : DecisionTree) (point : list Z) :
  0 < D ->
  run (DecisionTree_new D) calls = Ok this ->
  GetAllAreas this <> [] ->
  ((exists found this', ContainsPoint this point = Ok (found, this'))
   <-> size point = D) /\
  (size point <> D -> ContainsPoint this point = Fault).
Proof.
  intros HD Hrun Hne.
  destruct (reachable_index_ok _ _ _ Hrun) as [Hok Hdim].
  split; [split |].
  - intros (found & this' & H). unfold ContainsPoint in H.
    apply bind_Ok in H. destruct H as (u & Ha & _).
    apply assert_Ok, Z.eqb_eq in Ha. congruence.
  - intros Hp.
    destruct (ContainsPoint_brute this point) as (this' & Hc & _);
      try congruence; try assumption. eauto.
  - intros Hp. unfold ContainsPoint.
    replace (size point =? dimension_ this) with false
      by (symmetry; apply Z.eqb_neq; congruence).
    reflexivity.
Qed.

Lemma ContainsPoint_returns_iff_arity_witness :
  ((exists found this', ContainsPoint four_squares [3] = Ok (found, this'))
   <-> size [3] = 2) /\
  (size [3] <> 2 -> ContainsPoint four_squares [3] = Fault).
Proof.
  apply (ContainsPoint_returns_iff_arity 2 four_squares_calls);
    [lia | reflexivity | discriminate].
Defined.

(** X6. The lazy rebuild runs once: the index left by a query is clean,
    holds the same areas, and every further query on it returns and leaves
    it exactly as it is, tree included. *)
Theorem query_leaves_index_fixed
  (D : Z) (calls : list call) (this this' : DecisionTree) (point : list Z)
  (found : bool) :
  run (DecisionTree_new D) calls = Ok this ->
  ContainsPoint this point = Ok (found, this') ->
  dirty_ this' = false /\
  GetAllAreas this' = GetAllAreas this /\
  forall q, size q = D ->
    exists found', ContainsPoint this' q = Ok (found', this').
Proof.
  intros Hrun Hc.
  assert (Hrun' : run (DecisionTree_new D) (calls ++ [CallContainsPoint point])
                  = Ok this').
  { clear - Hrun Hc. revert Hrun. generalize (DecisionTree_new D).
    induction calls as [|c calls IH]; intros s Hrun; simpl in *.
    - inversion Hrun; subst. now rewrite Hc.
    - apply bind_Ok in Hrun. destruct Hrun as (s1 & -> & Hrun). simpl. auto. }
  destruct (reachable_index_ok _ _ _ Hrun) as [Hok Hdim].
  destruct (reachable_index_ok _ _ _ Hrun') as [Hok' Hdim'].
  assert (Hclean : dirty_ this' = false).
  { unfold ContainsPoint in Hc.
    apply bind_Ok in Hc. destruct Hc as (u & _ & Hc).
    apply bind_Ok in Hc. destruct Hc as (this1 & Hr & Hc).
    apply bind_Ok in Hc. destruct Hc as (b & _ & Hc). inversion Hc; subst.
    eapply RebuildTreeIfDirty_clears_dirty, Hr. }
  split; [exact Hclean |].
  split; [eapply ContainsPoint_areas, Hc |].
  intros q Hq. unfold ContainsPoint, RebuildTreeIfDirty.
  replace (size q =? dimension_ this') with true
    by (symmetry; apply Z.eqb_eq; congruence).
  rewrite Hclean. simpl.
  destruct Hok' as (Har & _ & Hbuilt). specialize (Hbuilt Hclean).
  apply BuildTree__built in Hbuilt. destruct Hbuilt as (_ & Hnn & Hb).
  assert (Hfind : FindPoint (root_ this') q = Ok (brute q (areas_ this'))).
  { erewrite <- built_find; [| exact Hb |].
    - destruct (root_ this'); [discriminate | reflexivity].
    - rewrite Hq, <- Hdim'. exact Har. }
  rewrite Hfind. simpl. eauto.
Qed.

Lemma query_leaves_index_fixed_witness :
  dirty_ four_squares_queried = false /\
  GetAllAreas four_squares_queried = GetAllAreas four_squares /\
  forall q, size q = 2 ->
    exists found',
      ContainsPoint four_squares_queried q = Ok (found', four_squares_queried).
Proof.
  apply (query_leaves_index_fixed 2 four_squares_calls four_squares
           four_squares_queried [3; 3] true); reflexivity.
Defined.

(** X7. An insertion can only add hits: after [AddArea] the answer for a
    point is the answer before it, or true when the new area contains the
    point in every dimension. *)
Theorem insertion_only_adds_hits
  (D : Z) (calls : list call) (this this2 : DecisionTree) (area : Area)
  (point : list Z) :
  0 < D ->
  run (DecisionTree_new D) calls = Ok this ->
  GetAllAreas this <> [] ->
  size point = D ->
  AddArea this area = Ok this2 ->
  exists found this1 this3,
    ContainsPoint this point = Ok (found, this1) /\
    ContainsPoint this2 point = Ok (found || covers area point, this3).
Proof.
  intros HD Hrun Hne Hp Hadd.
  destruct (reachable_index_ok _ _ _ Hrun) as [Hok Hdim].
  destruct (step_index_ok this this2 (CallAddArea area) Hok Hadd)
    as [Hok2 Hdim2].
  pose proof (step_areas this this2 (CallAddArea area) Hadd) as Hareas.
  simpl in Hareas.
  destruct (ContainsPoint_brute this point) as (this1 & Hc1 & _);
    try congruence; try assumption.
  destruct (ContainsPoint_brute this2 point) as (this3 & Hc3 & _);
    try congruence; try assumption.
  { rewrite Hareas. intros E. apply app_eq_nil in E. destruct E; discriminate. }
  exists (brute point (areas_ this)), this1, this3. split; [exact Hc1 |].
  rewrite Hc3, Hareas, brute_app. simpl. now rewrite orb_false_r.
Qed.

Lemma insertion_only_adds_hits_witness :
  exists found this1 this3,
    ContainsPoint four_squares [20; 20] = Ok (found, this1) /\
    ContainsPoint
      (mkDecisionTree 2 true (root_ four_squares)
         (areas_ four_squares ++ [[mkInterval 18 22; mkInterval 18 22]]))
      [20; 20]
    = Ok (found
          || covers [mkInterval 18 22; mkInterval 18 22] [20; 20], this3).
Proof.
  apply (insertion_only_adds_hits 2 four_squares_calls four_squares);
    [lia | reflexivity | discriminate | reflexivity | reflexivity].
Defined.

(** X8. The answers do not depend on the order of the insertions: two
    indexes of the same dimension that hold the same areas, in whatever
    order they were registered, answer every query alike. *)
Theorem answers_independent_of_insertion_order
  (D : Z) (calls1 calls2 : list call) (this1 this2 : DecisionTree)
  (point : list Z) :
  0 < D ->
  run (DecisionTree_new D) calls1 = Ok this1 ->
  run (DecisionTree_new D) calls2 = Ok this2 ->
  Permutation (GetAllAreas this1) (GetAllAreas this2) ->
  GetAllAreas this1 <> [] ->
  size point = D ->
  exists found this1' this2',
    ContainsPoint this1 point = Ok (found, this1') /\
    ContainsPoint this2 point = Ok (found, this2').
Proof.
  intros HD Hrun1 Hrun2 Hperm Hne Hp. unfold GetAllAreas in *.
  destruct (reachable_index_ok _ _ _ Hrun1) as [Hok1 Hdim1].
  destruct (reachable_index_ok _ _ _ Hrun2) as [Hok2 Hdim2].
  destruct (ContainsPoint_brute this1 point) as (s1 & Hc1 & _);
    try congruence; try assumption.
  destruct (ContainsPoint_brute this2 point) as (s2 & Hc2 & _);
    try congruence; try assumption.
  { intros E. rewrite E in Hperm. apply Permutation_sym in Hperm.
    apply Permutation_nil in Hperm. contradiction. }
  exists (brute point (areas_ this1)), s1, s2. split; [exact Hc1 |].
  now rewrite (brute_perm _ _ _ Hperm).
Qed.

Lemma answers_independent_of_insertion_order_witness :
  exists found this1' this2',
    ContainsPoint four_squares [3; 3] = Ok (found, this1') /\
    ContainsPoint
      (mkDecisionTree 2 true nullptr (rev (areas_ four_squares))) [3; 3]
    = Ok (found, this2').
Proof.
  apply (answers_independent_of_insertion_order 2 four_squares_calls
           (map CallAddArea (rev (areas_ four_squares)))).
  - lia.
  - reflexivity.
  - reflexivity.
  - apply Permutation_rev.
  - discriminate.
  - reflexivity.
Defined.

(** ** SumAreasToCheckSizes without a rebuild *)

(** X9. On a clean index [SumAreasToCheckSizes] is the number of registered
    areas. *)
Theorem clean_index_sum
  (D : Z) (calls : list call) (this : DecisionTree) :
  run (DecisionTree_new D) calls = Ok this ->
  dirty_ this = false ->
  SumAreasToCheckSizes this = Ok (length (GetAllAreas this)).
Proof.
  intros Hrun Hclean.
  destruct (reachable_index_ok _ _ _ Hrun) as [(_ & _ & Hb) _].
  specialize (Hb Hclean). apply BuildTree__built in Hb.
  destruct Hb as (_ & Hnn & Hb). apply built_stored in Hb.
  unfold SumAreasToCheckSizes, GetAllAreas.
  destruct (root_ this) eqn:Er; [discriminate |].
  now rewrite SumAreasToCheckSizes_stored, (Permutation_length Hb).
Qed.

Lemma clean_index_sum_witness :
  SumAreasToCheckSizes four_squares_queried
  = Ok (length (GetAllAreas four_squares_queried)).
Proof.
  apply (clean_index_sum 2 (four_squares_calls ++ [CallContainsPoint [3; 3]]));
    reflexivity.
Defined.

(** X10. [SumAreasToCheckSizes] does not rebuild: after an insertion into a
    clean index it still reports the number of areas before the insertion,
    one less than the index holds. *)
Theorem stale_sum_after_insertion
  (D : Z) (calls : list call) (this this' : DecisionTree) (area : Area) :
  run (DecisionTree_new D) calls = Ok this ->
  dirty_ this = false ->
  AddArea this area = Ok this' ->
  SumAreasToCheckSizes this' = Ok (length (GetAllAreas this)) /\
  length (GetAllAreas this') = S (length (GetAllAreas this)).
Proof.
  intros Hrun Hclean Hadd.
  pose proof (clean_index_sum D calls this Hrun Hclean) as Hsum.
  unfold AddArea in Hadd. apply bind_Ok in Hadd.
  destruct Hadd as (u & _ & Hadd). inversion Hadd; subst.
  unfold SumAreasToCheckSizes, GetAllAreas in *. simpl.
  split; [exact Hsum |]. rewrite length_app. simpl. lia.
Qed.

Lemma stale_sum_after_insertion_witness :
  SumAreasToCheckSizes
    (mkDecisionTree 2 true (root_ four_squares_queried)
       (areas_ four_squares_queried ++ [[mkInterval 0 1; mkInterval 0 1]]))
  = Ok (length (GetAllAreas four_squares_queried)) /\
  length (GetAllAreas
    (mkDecisionTree 2 true (root_ four_squares_queried)
       (areas_ four_squares_queried ++ [[mkInterval 0 1; mkInterval 0 1]])))
  = S (length (GetAllAreas four_squares_queried)).
Proof.
  apply (stale_sum_after_insertion 2
           (four_squares_calls ++ [CallContainsPoint [3; 3]])
           four_squares_queried _ [mkInterval 0 1; mkInterval 0 1]);
    reflexivity.
Defined.

Lemma run_adds_root (calls : list call) :
  forall this this' : DecisionTree,
    forallb is_add calls = true -> run this calls = Ok this' ->
    root_ this' = root_ this.
Proof.
  induction calls as [|c calls IH]; intros this this' Hall H; simpl in *.
  - now inversion H.
  - apply andb_true_iff in Hall. destruct Hall as [Hc Hall].
    apply bind_Ok in H. destruct H as (this1 & Hs & H).
    rewrite (IH _ _ Hall H). destruct c; try discriminate.
    simpl in Hs. unfold AddArea in Hs. apply bind_Ok in Hs.
    destruct Hs as (u & _ & Hs). now inversion Hs.
Qed.

(** X11. Before the first rebuild there is no tree to sum: on an index that
    has only seen insertions [SumAreasToCheckSizes] goes through the null
    root pointer. *)
Theorem sum_before_first_rebuild_faults
  (D : Z) (calls : list call) (this : DecisionTree) :
  forallb is_add calls = true ->
  run (DecisionTree_new D) calls = Ok this ->
  SumAreasToCheckSizes this = Fault.
Proof.
  intros Hall Hrun. unfold SumAreasToCheckSizes.
  now rewrite (run_adds_root calls _ _ Hall Hrun).
Qed.

Lemma sum_before_first_rebuild_faults_witness :
  SumAreasToCheckSizes two_intervals = Fault.
Proof.
  apply (sum_before_first_rebuild_faults 1 two_intervals_calls); reflexivity.
Defined.

(** ** The shape of a built tree *)

Lemma candidate_index (d : Z) (all_areas sorted : list Area) (dec : Decision) :
  candidate d all_areas = Ok (sorted, dec) -> dimension_index dec = d.
Proof.
  unfold candidate. intros H.
  apply bind_Ok in H. destruct H as (s & _ & H).
  apply bind_Ok in H. destruct H as (m & _ & H).
  apply bind_Ok in H. destruct H as (i & _ & H).
  now inversion H.
Qed.

Lemma dimension_loop_index (remaining : nat) :
  forall (d : Z) (st st' : Decision * Z * list Area),
    dimension_loop remaining d st = Ok st' -> 0 <= d ->
    dimension_index (fst (fst st)) = -1
    \/ 0 <= dimension_index (fst (fst st)) < d ->
    dimension_index (fst (fst st')) = -1
    \/ 0 <= dimension_index (fst (fst st')) < d + Z.of_nat remaining.
Proof.
  induction remaining as [|remaining IH];
    intros d [[best bc] all_areas] st' H Hd Hst.
  - inversion H; subst. simpl in *. lia.
  - simpl in H.
    apply bind_Ok in H. destruct H as ([sorted dec] & Hcand & H).
    apply bind_Ok in H. destruct H as ([[cut lc] rc] & _ & H).
    apply candidate_index in Hcand.
    apply IH in H; [lia | lia |].
    destruct ((dimension_index best =? -1) || (cut <? bc)); simpl in *; lia.
Qed.

Lemma built_nonnull (D : Z) (areas : list Area) (t : NodePtr) :
  built D areas t -> areas <> [] -> is_null t = false.
Proof. destruct 1; intros Hne; [contradiction | reflexivity ..]. Qed.

Lemma size_length {A : Type} (u v : list A) :
  size u = size v <-> length u = length v.
Proof. unfold size. lia. Qed.

Lemma built_well_shaped (D : Z) (areas : list Area) (t : NodePtr) :
  built D areas t -> well_shaped D t.
Proof.
  induction 1 as [| a | areas best bc all chk pl pr Hn _ _ _ _
                 | areas best bc all chk pl pr l r Hn Hloop Hbest Hsplit
                     _ _ Hl IHl Hr IHr].
  - exact I.
  - simpl. repeat split; try discriminate; lia.
  - simpl. repeat split; try lia.
    rewrite app_nil_r. intros E. rewrite E in Hn. unfold size in Hn.
    simpl in Hn. lia.
  - assert (Hdim : 0 <= dimension_index best < D).
    { apply dimension_loop_index in Hloop; simpl in *; lia. }
    split; [| split; [| split; [| split; assumption]]].
    + intros E.
      assert (Hp : Permutation (stored (Node chk l r best)) areas).
      { simpl. rewrite (built_stored _ _ _ Hl), (built_stored _ _ _ Hr).
        eapply split_areas_perm, Hsplit. }
      rewrite E in Hp. apply Permutation_nil in Hp. subst areas.
      unfold size in Hn. simpl in Hn. lia.
    + lia.
    + lia.
Qed.

(** X12. Every tree returned by [BuildTree_] is well shaped: each of its
    subtrees holds at least one area (so a node without children never has
    an empty bucket); a node whose decision is not valid has the default
    decision and no children, which is what the assertion in [FindPoint]
    expects; and a valid decision names a dimension in [0, D). *)
Theorem BuildTree__well_shaped
  (fuel : nat) (D : Z) (areas : list Area) (t : NodePtr) :
  BuildTree_ fuel D areas = Ok t -> well_shaped D t.
Proof.
  intros H. apply BuildTree__built in H.
  eapply built_well_shaped. apply H.
Qed.

Lemma BuildTree__well_shaped_witness : well_shaped 2 (root_ four_squares).
Proof.
  apply (BuildTree__well_shaped 5 2 (areas_ four_squares)). reflexivity.
Defined.

Lemma built_size (D : Z) (areas : list Area) (t : NodePtr) :
  built D areas t ->
  (node_count t <= 2 * length areas - 1)%nat /\
  (height t <= length areas)%nat.
Proof.
  induction 1 as [| a | areas best bc all chk pl pr Hn _ _ _ _
                 | areas best bc all chk pl pr l r Hn _ _ Hsplit
                     Hnl Hnr _ [IHl1 IHl2] _ [IHr1 IHr2]].
  - simpl. lia.
  - simpl. lia.
  - unfold size in Hn. simpl. lia.
  - pose proof (Permutation_length (split_areas_perm _ _ _ _ _ Hsplit)) as Hlen.
    rewrite !length_app in Hlen.
    rewrite size_length in Hnl, Hnr. simpl. lia.
Qed.

(** X13. The tree built from [n] areas has at most [2n - 1] nodes and
    height at most [n]. *)
Theorem BuildTree__size_bounds
  (fuel : nat) (D : Z) (areas : list Area) (t : NodePtr) :
  BuildTree_ fuel D areas = Ok t ->
  (node_count t <= 2 * length areas - 1)%nat /\
  (height t <= length areas)%nat.
Proof.
  intros H. apply BuildTree__built in H.
  eapply built_size. apply H.
Qed.

Lemma BuildTree__size_bounds_witness :
  (node_count (root_ four_squares) <= 2 * length (areas_ four_squares) - 1)%nat
  /\ (height (root_ four_squares) <= length (areas_ four_squares))%nat.
Proof.
  apply (BuildTree__size_bounds 5 2 (areas_ four_squares)). reflexivity.
Defined.

(** ** The left child *)

Lemma filter_length_perm {A : Type} (f : A -> bool) (u v : list A) :
  Permutation u v -> length (filter f u) = length (filter f v).
Proof.
  induction 1; simpl; try congruence.
  - destruct (f x); simpl; congruence.
  - destruct (f x), (f y); reflexivity.
Qed.

Lemma filter_map_length {A B : Type} (g : A -> B) (f : B -> bool)
  (v : list A) :
  length (filter f (map g v)) = length (filter (fun a => f (g a)) v).
Proof.
  induction v as [|a v IH]; [reflexivity |].
  simpl. destruct (f (g a)); simpl; congruence.
Qed.

Lemma filter_ext_length {A : Type} (f g : A -> bool) (v : list A) :
  (forall a, In a v -> f a = g a) ->
  length (filter f v) = length (filter g v).
Proof.
  intros H. rewrite (filter_ext_in f g v H). reflexivity.
Qed.

(** In an ascending sequence the element at index [k] has at least [k + 1]
    elements that do not exceed it. *)
Lemma sorted_prefix_count (s : list Z) :
  Sorted Z.le s ->
  forall k, (k < length s)%nat ->
    (k + 1 <= length (filter (fun x => (x <=? nth k s 0)%Z) s))%nat.
Proof.
  intros Hs. apply Sorted_StronglySorted in Hs; [| intros ? ? ? ? ?; lia].
  induction Hs as [|a s Hs IH Ha]; intros k Hk; [simpl in Hk; lia |].
  destruct k as [|k]; simpl.
  - rewrite Z.leb_refl. simpl. lia.
  - simpl in Hk. assert (Hlt : (k < length s)%nat) by lia.
    rewrite Forall_forall in Ha.
    rewrite (proj2 (Z.leb_le a (nth k s 0)))
      by (apply Ha, nth_In, Hlt).
    simpl. specialize (IH k Hlt). lia.
Qed.

Lemma goes_left_candidate (D d : Z) (areas : list Area) (a : Area) :
  Forall (arity D) areas -> Forall increment_in_range areas ->
  1 <= size areas -> 0 <= d < D -> In a areas ->
  goes_left (candidate_of d areas) a
  = (right_at d a <=? median_right d areas).
Proof.
  intros Har Hrg Hn Hd Hin.
  rewrite (candidate_of_threshold D) by auto.
  unfold goes_left. simpl.
  rewrite Forall_forall in Har.
  destruct (at_defined a d) as [i Hi];
    [rewrite (Har a Hin); exact Hd |].
  rewrite Hi, (right_at_Ok _ _ _ Hi).
  unfold Contains, ToTheLeft.
  destruct (Z.leb_spec (right i) (median_right d areas)).
  - rewrite (proj2 (Z.leb_gt (median_right d areas + 1) (right i))) by lia.
    rewrite andb_false_r. simpl. apply Z.gtb_lt. lia.
  - destruct (Z.gtb_spec (median_right d areas + 1) (right i)); [lia |].
    apply andb_false_r.
Qed.

(** At least half of the areas go left of a candidate. *)
Lemma candidate_left_half (D d : Z) (areas : list Area) :
  Forall (arity D) areas -> Forall increment_in_range areas ->
  1 <= size areas -> 0 <= d < D ->
  (length areas
   <= 2 * length (filter (goes_left (candidate_of d areas)) areas))%nat.
Proof.
  intros Har Hrg Hn Hd.
  rewrite (filter_ext_length _
             (fun a => right_at d a <=? median_right d areas))
    by (intros a Hin; eapply goes_left_candidate; eauto).
  rewrite <- (filter_map_length (right_at d)
                (fun x => x <=? median_right d areas)).
  fold (rights d areas).
  set (s := rights d (sort (less_right d) areas)).
  assert (Hp : Permutation s (rights d areas)).
  { unfold s, rights. apply Permutation_map. apply (sort_perm (right_at d)). }
  rewrite <- (filter_length_perm _ _ _ Hp).
  assert (Hlen : length s = length areas).
  { rewrite (Permutation_length Hp). unfold rights. apply length_map. }
  pose proof (median_index_range _ Hn) as Hidx. unfold size in Hidx.
  assert (Hk : (Z.to_nat (Z.quot (size areas - 1) 2) < length s)%nat).
  { unfold size. lia. }
  pose proof (sorted_prefix_count s (sort_Sorted (right_at d) areas) _ Hk)
    as Hcount.
  unfold median_right. fold s.
  assert (Hhalf : (length areas
                   <= 2 * (Z.to_nat (Z.quot (size areas - 1) 2) + 1))%nat).
  { unfold size in *. rewrite Z.quot_div_nonneg by lia.
    pose proof (Z.div_mod (Z.of_nat (length areas) - 1) 2 ltac:(lia)) as Hdm.
    pose proof (Z.mod_pos_bound (Z.of_nat (length areas) - 1) 2 ltac:(lia)).
    lia. }
  lia.
Qed.

Lemma built_left_heavy (D : Z) (areas : list Area) (t : NodePtr) :
  0 < D -> built D areas t ->
  Forall (arity D) areas -> Forall increment_in_range areas ->
  left_heavy t.
Proof.
  intros HD.
  induction 1 as [| a | areas best bc all chk pl pr Hn _ _ _ _
                 | areas best bc all chk pl pr l r Hn Hloop Hbest Hsplit
                     _ _ Hl IHl Hr IHr];
    intros Har Hrg.
  - exact I.
  - simpl. repeat split; lia.
  - simpl. repeat split; lia.
  - destruct (split_areas_Ok _ _ _ _ _ Hsplit) as (Hchk & Hpl & Hpr).
    destruct (dimension_loop_Ok D areas HD Har ltac:(lia))
      as (best' & bc' & all' & Hloop' & _ & Hb & Hc & _).
    rewrite Hloop in Hloop'. inversion Hloop'; subst best' bc' all'.
    assert (Hhalf : (length areas <= 2 * length pl)%nat).
    { rewrite Hpl, Hc. apply (candidate_left_half D); auto; lia. }
    assert (Hfilter : forall f,
               Forall (arity D) (filter f areas)
               /\ Forall increment_in_range (filter f areas)).
    { intros f. split; rewrite Forall_forall in *; intros a Hin;
        apply filter_In in Hin; [apply Har | apply Hrg]; tauto. }
    split; [| split].
    + intros _. split.
      * apply (built_nonnull _ _ _ Hl). intros E. rewrite E in Hhalf.
        unfold size in Hn. simpl in Hhalf. lia.
      * assert (Hp : Permutation (stored (Node chk l r best)) areas).
        { simpl. rewrite (built_stored _ _ _ Hl), (built_stored _ _ _ Hr).
          eapply split_areas_perm, Hsplit. }
        rewrite (Permutation_length Hp),
                (Permutation_length (built_stored _ _ _ Hl)).
        exact Hhalf.
    + apply IHl; rewrite Hpl; apply Hfilter.
    + apply IHr; rewrite Hpr; apply Hfilter.
Qed.

(** X14. With areas of arity [D >= 1] whose right bounds are below
    [INT_MAX], every node with a valid decision has a left child, and the
    left subtree holds at least half of the areas under the node: the
    threshold sits one past the lower median of the right bounds. *)
Theorem BuildTree__left_heavy
  (fuel : nat) (D : Z) (areas : list Area) (t : NodePtr) :
  0 < D ->
  Forall (arity D) areas ->
  Forall increment_in_range areas ->
  BuildTree_ fuel D areas = Ok t ->
  left_heavy t.
Proof.
  intros HD Har Hrg H. apply BuildTree__built in H.
  eapply built_left_heavy; eauto. apply H.
Qed.

Lemma BuildTree__left_heavy_witness : left_heavy (root_ four_squares).
Proof.
  apply (BuildTree__left_heavy 5 2 (areas_ four_squares)).
  - lia.
  - repeat constructor.
  - unfold increment_in_range, INT_MIN, INT_MAX.
    repeat constructor; simpl; lia.
  - reflexivity.
Defined.

(** ** Dimensions that are not positive *)

(** X15. A single area becomes a leaf without being looked at, whatever the
    dimension of the index and the arity of the area. With two or more
    areas and a dimension that is not positive the loop over the dimensions
    does not run, and the build ends at the assertion that a choice was
    made. *)
Theorem BuildTree__degenerate_dimension
  (fuel : nat) (D : Z) (areas : list Area) :
  (size areas = 1 ->
   BuildTree_ (S fuel) D areas
   = Ok (Node areas nullptr nullptr Decision_default)) /\
  (size areas >= 2 -> D <= 0 -> BuildTree_ (S fuel) D areas = Fault).
Proof.
  split.
  - intros H1. rewrite BuildTree__unfold, H1. reflexivity.
  - intros Hn HD. rewrite BuildTree__unfold.
    replace (size areas >? 0) with true by (symmetry; apply Z.gtb_lt; lia).
    replace (size areas =? 1) with false by (symmetry; apply Z.eqb_neq; lia).
    replace (Z.to_nat D) with 0%nat by lia. reflexivity.
Qed.

Lemma BuildTree__degenerate_dimension_witness :
  BuildTree_ 3 0 [[]; []] = Fault.
Proof.
  apply (proj2 (BuildTree__degenerate_dimension 2 0 [[]; []]));
    [vm_compute; discriminate | lia].
Defined.

(** ** The order of the areas *)

Lemma candidate_of_perm (d : Z) (u v : list Area) :
  Permutation u v -> candidate_of d u = candidate_of d v.
Proof.
  intros Hp. unfold candidate_of. now rewrite (median_right_perm d u v Hp).
Qed.

Lemma is_retained_perm (D : Z) (u v : list Area) (best : Decision) :
  Permutation u v -> is_retained D u best -> is_retained D v best.
Proof.
  intros Hp (Hdim & Hc & Hmin). split; [exact Hdim |]. split.
  - now rewrite <- (candidate_of_perm _ u v Hp).
  - intros d Hd.
    rewrite <- (candidate_of_perm d u v Hp),
            <- !(cut_through_perm _ u v Hp).
    now apply Hmin.
Qed.

Lemma is_retained_unique (D : Z) (areas : list Area) (b1 b2 : Decision) :
  is_retained D areas b1 -> is_retained D areas b2 -> b1 = b2.
Proof.
  intros (Hd1 & Hc1 & Hmin1) (Hd2 & Hc2 & Hmin2).
  assert (Heq : dimension_index b1 = dimension_index b2).
  { destruct (Hmin1 (dimension_index b2) Hd2) as [Hle1 Hlt1].
    destruct (Hmin2 (dimension_index b1) Hd1) as [Hle2 Hlt2].
    rewrite <- Hc2 in Hle1, Hlt1. rewrite <- Hc1 in Hle2, Hlt2.
    destruct (Z.lt_trichotomy (dimension_index b1) (dimension_index b2))
      as [Hlt | [Heq | Hgt]]; [| exact Heq |].
    - specialize (Hlt2 Hlt). lia.
    - specialize (Hlt1 Hgt). lia. }
  rewrite Hc1, Hc2, Heq. reflexivity.
Qed.

Lemma dimension_loop_is_retained (D : Z) (areas : list Area) :
  0 < D -> Forall (arity D) areas -> 1 <= size areas ->
  exists best best_cut all_areas,
    dimension_loop (Z.to_nat D) 0 (mkDecision (-1) (-1), -1, areas)
    = Ok (best, best_cut, all_areas) /\
    is_retained D areas best.
Proof.
  intros HD Har Hn.
  destruct (dimension_loop_Ok D areas HD Har Hn)
    as (best & bc & all_areas & Hrun & _ & Hb & Hc & Hcut & Hmin).
  exists best, bc, all_areas. split; [exact Hrun |].
  split; [exact Hb |]. split; [exact Hc |]. now rewrite <- Hcut.
Qed.

Lemma filter_respects_perm {A : Type} (f : A -> bool) (u v : list A) :
  Permutation u v -> Permutation (filter f u) (filter f v).
Proof.
  induction 1; simpl.
  - constructor.
  - destruct (f x); [now constructor | assumption].
  - destruct (f x), (f y); try reflexivity. apply perm_swap.
  - etransitivity; eassumption.
Qed.

Lemma is_empty_perm {A : Type} (u v : list A) :
  Permutation u v -> is_empty u = is_empty v.
Proof.
  intros Hp. destruct u as [|x u], v as [|y v]; try reflexivity.
  - apply Permutation_nil in Hp. discriminate.
  - apply Permutation_sym, Permutation_nil in Hp. discriminate.
Qed.

(** X17. The tree does not depend on the order in which the areas reach
    the build: from a permutation of the areas (of arity [D >= 1])
    [BuildTree_] returns a tree with the same decisions and the same
    children, whose buckets hold the same areas up to their order. *)
Theorem BuildTree__order_independent (fuel : nat) :
  forall (D : Z) (areas areas' : list Area) (t : NodePtr),
    0 < D ->
    Forall (arity D) areas ->
    Permutation areas areas' ->
    BuildTree_ fuel D areas = Ok t ->
    exists t', BuildTree_ fuel D areas' = Ok t' /\ same_shape t t'.
Proof.
  induction fuel as [|fuel IH]; intros D areas areas' t HD Har Hp H;
    [discriminate |].
  assert (Har' : Forall (arity D) areas')
    by (eapply Forall_arity_perm; [symmetry |]; eassumption).
  assert (Hsz : size areas' = size areas)
    by (unfold size; now rewrite (Permutation_length Hp)).
  rewrite BuildTree__unfold in H |- *. rewrite Hsz.
  apply bind_Ok in H. destruct H as (u & Hpos & H). rewrite Hpos. simpl.
  apply assert_Ok in Hpos.
  assert (Hn : 1 <= size areas)
    by (destruct (Z.gtb_spec (size areas) 0); [lia | discriminate]).
  destruct (Z.eqb_spec (size areas) 1) as [E1 | E1].
  - destruct (size_one _ E1) as [a ->].
    apply Permutation_length_1_inv in Hp. subst areas'.
    inversion H; subst. eexists. split; [reflexivity |].
    simpl. auto.
  - apply bind_Ok in H. destruct H as ([[best bc] all_areas] & Hloop & H).
    apply bind_Ok in H. destruct H as (u' & Hchosen & H).
    apply bind_Ok in H. destruct H as ([[chk pl] pr] & Hsplit & H).
    destruct (dimension_loop_is_retained D areas HD Har Hn)
      as (b1 & bc1 & all1 & Hloop1 & Hret1).
    rewrite Hloop in Hloop1. inversion Hloop1; subst b1 bc1 all1.
    destruct (dimension_loop_is_retained D areas' HD Har' ltac:(lia))
      as (b2 & bc2 & all2 & Hloop2 & Hret2).
    assert (b2 = best).
    { eapply is_retained_unique; [exact Hret2 |].
      eapply is_retained_perm; eassumption. }
    subst b2. rewrite Hloop2. simpl. rewrite Hchosen. simpl.
    destruct (split_areas_Ok _ _ _ _ _ Hsplit) as (Hchk & Hpl & Hpr).
    rewrite split_areas_filter
      by (eapply arity_has_dim; eauto; apply Hret1).
    simpl.
    pose proof (filter_respects_perm (straddles best) _ _ Hp) as Pchk.
    pose proof (filter_respects_perm (goes_left best) _ _ Hp) as Ppl.
    pose proof (filter_respects_perm (goes_right best) _ _ Hp) as Ppr.
    rewrite <- Hchk in Pchk. rewrite <- Hpl in Ppl. rewrite <- Hpr in Ppr.
    replace (size (filter (goes_left best) areas')) with (size pl)
      by (unfold size; now rewrite (Permutation_length Ppl)).
    replace (size (filter (goes_right best) areas')) with (size pr)
      by (unfold size; now rewrite (Permutation_length Ppr)).
    destruct ((size pl =? size areas) || (size pr =? size areas)).
    + inversion H; subst t. eexists. split; [reflexivity |]. simpl. auto.
    + apply bind_Ok in H. destruct H as (l & Hl & H).
      apply bind_Ok in H. destruct H as (r & Hr & H). inversion H; subst t.
      assert (Hlc : exists l',
                 (if negb (is_empty (filter (goes_left best) areas'))
                  then BuildTree_ fuel D (filter (goes_left best) areas')
                  else Ok nullptr) = Ok l' /\ same_shape l l').
      { rewrite <- (is_empty_perm _ _ Ppl).
        destruct (is_empty pl); simpl in *.
        - inversion Hl; subst. exists nullptr. split; [reflexivity | exact I].
        - apply (IH D pl _ l HD); [| exact Ppl | exact Hl].
          rewrite Hpl. now apply Forall_arity_filter. }
      assert (Hrc : exists r',
                 (if negb (is_empty (filter (goes_right best) areas'))
                  then BuildTree_ fuel D (filter (goes_right best) areas')
                  else Ok nullptr) = Ok r' /\ same_shape r r').
      { rewrite <- (is_empty_perm _ _ Ppr).
        destruct (is_empty pr); simpl in *.
        - inversion Hr; subst. exists nullptr. split; [reflexivity | exact I].
        - apply (IH D pr _ r HD); [| exact Ppr | exact Hr].
          rewrite Hpr. now apply Forall_arity_filter. }
      destruct Hlc as (l' & -> & Sl). destruct Hrc as (r' & -> & Sr).
      simpl. eexists. split; [reflexivity |]. simpl. auto.
Qed.

Lemma BuildTree__order_independent_witness :
  exists t',
    BuildTree_ 5 2 (rev (areas_ four_squares)) = Ok t' /\
    same_shape (root_ four_squares) t'.
Proof.
  apply (BuildTree__order_independent 5 2 (areas_ four_squares)).
  - lia.
  - repeat constructor.
  - apply Permutation_rev.
  - reflexivity.
Defined.

(** ** The test driver *)

Lemma random_area_spec (rnd : nat -> Z) (left_first : bool) (dims : nat) :
  forall k,
    length (fst (random_area rnd left_first dims k)) = dims /\
    snd (random_area rnd left_first dims k) = (k + 3 * dims)%nat.
Proof.
  induction dims as [|dims IH]; intros k; simpl; [split; [reflexivity | lia] |].
  unfold random_interval.
  destruct left_first;
    (destruct (random_area _ _ dims (S (S (S k)))) as [rest k2] eqn:E;
     specialize (IH (S (S (S k)))); rewrite E in IH; simpl in *;
     destruct IH as [IH1 IH2]; split; [congruence | lia]).
Qed.

Lemma random_point_spec (rnd : nat -> Z) (dims : nat) :
  forall k,
    length (fst (random_point rnd dims k)) = dims /\
    snd (random_point rnd dims k) = (k + dims)%nat.
Proof.
  induction dims as [|dims IH]; intros k; simpl; [split; [reflexivity | lia] |].
  destruct (random_point rnd dims (S k)) as [rest k1] eqn:E.
  specialize (IH (S k)). rewrite E in IH. simpl in *.
  destruct IH as [IH1 IH2]. split; [congruence | lia].
Qed.

Lemma add_random_areas_Ok (rnd : nat -> Z) (left_first : bool) (D : Z)
  (count : nat) :
  0 <= D ->
  forall dt k,
    dimension_ dt = D -> Forall (arity D) (areas_ dt) ->
    exists dt',
      add_random_areas rnd left_first D count dt k
      = Ok (dt', (k + 3 * Z.to_nat D * count)%nat) /\
      dimension_ dt' = D /\ Forall (arity D) (areas_ dt') /\
      length (areas_ dt') = (length (areas_ dt) + count)%nat.
Proof.
  intros HD. induction count as [|count IH]; intros dt k Hdim Har.
  - exists dt. split; [simpl; f_equal; f_equal; lia |].
    split; [exact Hdim |]. split; [exact Har | lia].
  - simpl.
    destruct (random_area rnd left_first (Z.to_nat D) k) as [area k1] eqn:E.
    destruct (random_area_spec rnd left_first (Z.to_nat D) k) as [Hlen Hk].
    rewrite E in Hlen, Hk. simpl in Hlen, Hk.
    unfold AddArea.
    replace (size area =? dimension_ dt) with true
      by (symmetry; apply Z.eqb_eq; unfold size; lia).
    simpl.
    destruct (IH (mkDecisionTree (dimension_ dt) true (root_ dt)
                                 (areas_ dt ++ [area])) k1)
      as (dt' & Hrun & Hd' & Har' & Hlen').
    + exact Hdim.
    + simpl. apply Forall_app. split; [exact Har |].
      constructor; [unfold arity, size; lia | constructor].
    + exists dt'. rewrite Hrun. split; [f_equal; f_equal; lia |].
      split; [exact Hd' |]. split; [exact Har' |].
      rewrite Hlen'. simpl. rewrite length_app. simpl. lia.
Qed.

Lemma ContainsPoint_holds_built_tree (D : Z) (dt : DecisionTree)
  (point : list Z) :
  holds_built_tree D dt -> size point = D ->
  exists dt',
    ContainsPoint dt point = Ok (brute point (areas_ dt), dt') /\
    holds_built_tree D dt' /\ areas_ dt' = areas_ dt.
Proof.
  intros (Hdim & Har & Hb) Hp.
  assert (Hfind : FindPoint (root_ dt) point = Ok (brute point (areas_ dt))).
  { pose proof Hb as Hb'. apply BuildTree__built in Hb'.
    destruct Hb' as (_ & Hnn & Hb').
    erewrite <- built_find; [| exact Hb' |].
    - destruct (root_ dt); [discriminate | reflexivity].
    - now rewrite Hp. }
  unfold ContainsPoint, RebuildTreeIfDirty, RebuildTree.
  replace (size point =? dimension_ dt) with true
    by (symmetry; apply Z.eqb_eq; congruence).
  cbn [assert bind]. destruct (dirty_ dt).
  - rewrite Hdim, Hb. cbn [bind root_ areas_ dimension_].
    rewrite Hfind. cbn [bind].
    eexists. split; [reflexivity |]. repeat split; assumption.
  - cbn [bind]. rewrite Hfind. cbn [bind].
    exists dt. split; [reflexivity |]. repeat split; assumption.
Qed.

Lemma query_random_points_Ok (rnd : nat -> Z) (D : Z) (check : bool)
  (count : nat) :
  0 <= D ->
  forall dt k,
    holds_built_tree D dt ->
    exists dt',
      query_random_points rnd D check count dt k
      = Ok (dt', (k + Z.to_nat D * count)%nat) /\
      holds_built_tree D dt' /\ areas_ dt' = areas_ dt.
Proof.
  intros HD. induction count as [|count IH]; intros dt k Hdt.
  - exists dt. split; [simpl; f_equal; f_equal; lia | auto].
  - simpl.
    destruct (random_point rnd (Z.to_nat D) k) as [point k1] eqn:E.
    destruct (random_point_spec rnd (Z.to_nat D) k) as [Hlen Hk].
    rewrite E in Hlen, Hk. simpl in Hlen, Hk.
    destruct (ContainsPoint_holds_built_tree D dt point Hdt)
      as (dt1 & Hc & Hdt1 & Ha1); [unfold size; lia |].
    rewrite Hc. simpl.
    assert (Hcheck : (if check then
                        expected <- BruteContains point (GetAllAreas dt1) ;;
                        assert (Bool.eqb (brute point (areas_ dt)) expected)
                      else Ok tt) = Ok tt).
    { destruct check; [| reflexivity].
      unfold GetAllAreas. rewrite Ha1, BruteContains_brute.
      - simpl. now rewrite eqb_reflx.
      - replace (size point) with D by (unfold size; lia). apply Hdt. }
    rewrite Hcheck. simpl.
    destruct (IH dt1 k1 Hdt1) as (dt' & Hrun & Hdt' & Ha').
    exists dt'. rewrite Hrun. split; [f_equal; f_equal; lia |].
    split; [exact Hdt' | congruence].
Qed.

Lemma INT_MAX_value : INT_MAX = 2147483647.
Proof. reflexivity. Qed.

(** X18. [RandomTest<D>] passes whatever [rand()] returns and whichever of
    the two calls in the constructor's arguments runs first: for [D >= 1]
    and a positive [add_count] none of its assertions fails, with or
    without [check_for_correctness], and it has drawn
    [3 * D * add_count + D * contains_count] random numbers. *)
Theorem RandomTest_passes
  (rnd : nat -> Z) (left_first : bool) (D add_count contains_count : Z)
  (check_for_correctness : bool) (k : nat) :
  0 < D ->
  0 < add_count <= INT_MAX ->
  RandomTest rnd left_first D add_count contains_count
             check_for_correctness k
  = Ok (k + 3 * Z.to_nat D * Z.to_nat add_count
          + Z.to_nat D * Z.to_nat contains_count)%nat.
Proof.
  intros HD Hadd. unfold RandomTest.
  destruct (add_random_areas_Ok rnd left_first D (Z.to_nat add_count)
              ltac:(lia) (DecisionTree_new D) k eq_refl (Forall_nil _))
    as (dt & -> & Hdim & Har & Hlen).
  simpl in Hlen. cbn [bind].
  destruct (BuildTree__total D HD (S (length (areas_ dt))) (areas_ dt) Har)
    as [root Hroot]; [unfold size; lia |].
  unfold RebuildTree. rewrite Hdim, Hroot. cbn [bind].
  set (dt1 := mkDecisionTree D (dirty_ dt) root (areas_ dt)).
  assert (Hdt1 : holds_built_tree D dt1) by (repeat split; assumption).
  destruct (query_random_points_Ok rnd D check_for_correctness
              (Z.to_nat contains_count) ltac:(lia) dt1
              (k + 3 * Z.to_nat D * Z.to_nat add_count)%nat Hdt1)
    as (dt2 & -> & (Hdim2 & Har2 & Hb2) & Ha2).
  cbn [bind].
  apply BuildTree__built in Hb2. destruct Hb2 as (_ & Hnn & Hb2).
  apply built_stored in Hb2.
  unfold SumAreasToCheckSizes.
  destruct (root_ dt2) eqn:Er; [discriminate |].
  rewrite SumAreasToCheckSizes_stored, (Permutation_length Hb2), Ha2.
  cbn [bind]. unfold dt1. cbn [areas_]. rewrite Hlen.
  rewrite INT_MAX_value in Hadd.
  replace (Z.of_nat (Z.to_nat add_count) =? add_count mod 2 ^ 64) with true.
  - reflexivity.
  - symmetry. apply Z.eqb_eq. rewrite Z.mod_small; lia.
Qed.

Lemma RandomTest_passes_witness :
  RandomTest (fun n => Z.of_nat n * 7919) true 2 3 4 true 0
  = Ok (0 + 3 * Z.to_nat 2 * Z.to_nat 3 + Z.to_nat 2 * Z.to_nat 4)%nat.
Proof.
  apply (RandomTest_passes (fun n => Z.of_nat n * 7919) true 2 3 4 true 0).
  - lia.
  - rewrite INT_MAX_value. lia.
Defined.

(** X19. [RandomTest] without insertions fails: with [add_count <= 0] the
    explicit [RebuildTree] reaches [BuildTree_] with no area and its first
    assertion ends the run. *)
Theorem RandomTest_without_insertions_faults
  (rnd : nat -> Z) (left_first : bool) (D add_count contains_count : Z)
  (check_for_correctness : bool) (k : nat) :
  add_count <= 0 ->
  RandomTest rnd left_first D add_count contains_count
             check_for_correctness k
  = Fault.
Proof.
  intros Hadd. unfold RandomTest.
  replace (Z.to_nat add_count) with 0%nat by lia. reflexivity.
Qed.

Lemma RandomTest_without_insertions_faults_witness :
  RandomTest (fun n => Z.of_nat n) true 2 0 5 false 0 = Fault.
Proof.
  apply (RandomTest_without_insertions_faults (fun n => Z.of_nat n) true 2 0 5).
  lia.
Defined.

Lemma SimpleTest_passes : SimpleTest = Ok tt.
Proof. reflexivity. Qed.

(** X20. [main] returns 0: the manual test and the four random tests pass
    whatever [rand()] returns. *)
Theorem main_returns_zero (rnd : nat -> Z) (left_first : bool) :
  main rnd left_first = Ok 0.
Proof.
  assert (Hcount : 0 < 1000 <= INT_MAX) by (rewrite INT_MAX_value; lia).
  unfold main. rewrite SimpleTest_passes. cbn [bind].
  rewrite (RandomTest_passes rnd left_first 2) by (lia || exact Hcount).
  cbn [bind].
  rewrite (RandomTest_passes rnd left_first 4) by (lia || exact Hcount).
  cbn [bind].
  rewrite (RandomTest_passes rnd left_first 8) by (lia || exact Hcount).
  cbn [bind].
  rewrite (RandomTest_passes rnd left_first 2) by (lia || exact Hcount).
  reflexivity.
Qed.

(** X21. The areas [RandomTest] registers satisfy what the index expects of
    its callers: as [rand()] never returns a negative number, every
    interval has [0 <= left < right], is at most 199 wide and ends below
    100199, far from the end of the range of [int]. *)
Theorem random_area_well_formed
  (rnd : nat -> Z) (left_first : bool) (dims : nat) :
  (forall n, 0 <= rnd n) ->
  forall k,
    Forall (fun i => 0 <= left i < right i /\ right i - left i <= 199
                     /\ right i < 100199)
           (fst (random_area rnd left_first dims k)).
Proof.
  intros Hrnd. induction dims as [|dims IH]; intros k; simpl; [constructor |].
  unfold random_interval, offset_mod.
  pose proof (Z.rem_bound_pos (rnd k) 100000 (Hrnd _) ltac:(lia)).
  pose proof (Z.rem_bound_pos (rnd (S k)) 100 (Hrnd _) ltac:(lia)).
  pose proof (Z.rem_bound_pos (rnd (S (S k))) 100 (Hrnd _) ltac:(lia)).
  destruct left_first;
    (destruct (random_area _ _ dims (S (S (S k)))) as [rest k2] eqn:E;
     specialize (IH (S (S (S k)))); rewrite E in IH; simpl in *;
     constructor; [simpl; lia | exact IH]).
Qed.

Lemma random_area_well_formed_witness :
  Forall (fun i => 0 <= left i < right i /\ right i - left i <= 199
                   /\ right i < 100199)
         (fst (random_area (fun n => Z.of_nat n * 7919) false 2 0)).
Proof.
  apply (random_area_well_formed (fun n => Z.of_nat n * 7919) false 2).
  intros n. lia.
Defined.

(** ** The textual dump *)

Lemma line_ends_put (cout s : String.string) :
  line_ends (put cout s) = (line_ends cout + line_ends s)%nat.
Proof.
  unfold put. induction cout as [|c cout IH]; simpl; [reflexivity |].
  rewrite IH. lia.
Qed.

Lemma line_ends_uint (u : Decimal.uint) :
  line_ends (DecimalString.NilEmpty.string_of_uint u) = 0%nat.
Proof. induction u; simpl; auto. Qed.

Lemma line_ends_put_int (cout : String.string) (n : Z) :
  line_ends (put_int cout n) = line_ends cout.
Proof.
  unfold put_int. rewrite line_ends_put.
  unfold DecimalString.NilZero.string_of_int,
         DecimalString.NilZero.string_of_uint.
  destruct (Z.to_int n) as [u | u]; destruct u; simpl;
    rewrite ?line_ends_uint; lia.
Qed.

Lemma line_ends_Decision_Print (dec : Decision) (cout : String.string) :
  line_ends (Decision_Print dec cout) = line_ends cout.
Proof.
  unfold Decision_Print.
  repeat first [rewrite line_ends_put | rewrite line_ends_put_int].
  simpl. lia.
Qed.

Lemma line_ends_indent (indent : String.string) :
  line_ends indent = 0%nat -> line_ends (String.append indent "  ") = 0%nat.
Proof. intros H. fold (put indent "  "). rewrite line_ends_put, H. reflexivity. Qed.

Lemma Node_Print_lines (t : NodePtr) :
  forall indent cout,
    is_null t = false -> line_ends indent = 0%nat ->
    exists out,
      Node_Print t indent cout = Ok out /\
      line_ends out = (line_ends cout + 4 * node_count t)%nat.
Proof.
  induction t as [| chk l IHl r IHr dec]; intros indent cout Hnn Hind;
    [discriminate |].
  cbn [Node_Print].
  set (c2 := put (Decision_Print dec
                    (put (put (put (put cout indent) "NODE") endl) indent))
                 endl).
  assert (Hc2 : line_ends c2 = (line_ends cout + 2)%nat).
  { unfold c2. rewrite line_ends_put, line_ends_Decision_Print,
      !line_ends_put, Hind. simpl. lia. }
  assert (Hl : exists out,
             match l with
             | nullptr =>
                 Ok (put (put (put c2 indent) "Left child missing.") endl)
             | Node _ _ _ _ =>
                 Node_Print l (String.append indent "  ")
                   (put (put (put c2 indent) "Left child:") endl)
             end = Ok out /\
             line_ends out = (line_ends c2 + 1 + 4 * node_count l)%nat).
  { destruct l as [| lc ll lr ld] eqn:El.
    - eexists. split; [reflexivity |].
      rewrite !line_ends_put, Hind. simpl. lia.
    - rewrite <- El in *.
      destruct (IHl (String.append indent "  ")
                    (put (put (put c2 indent) "Left child:") endl))
        as (out & Hout & Hlines);
        [subst l; reflexivity | now apply line_ends_indent |].
      subst l. exists out. split; [exact Hout |].
      rewrite Hlines, !line_ends_put, Hind. simpl line_ends. lia. }
  destruct Hl as (c3 & -> & Hc3). cbn [bind].
  destruct r as [| rc rl rr rd] eqn:Er.
  - eexists. split; [reflexivity |].
    rewrite !line_ends_put, Hind, Hc3, Hc2. simpl. lia.
  - rewrite <- Er in *.
    destruct (IHr (String.append indent "  ")
                  (put (put (put c3 indent) "Right child:") endl))
      as (out & Hout & Hlines);
      [subst r; reflexivity | now apply line_ends_indent |].
    subst r. exists out. split; [exact Hout |].
    rewrite Hlines, !line_ends_put, Hind, Hc3, Hc2. simpl line_ends.
    simpl node_count. lia.
Qed.

(** X22. [Print] of the index never fails, not even before the first
    rebuild, when it writes the single line that the root is null;
    otherwise it writes a heading and four lines for every node of the
    tree. *)
Theorem DecisionTree_Print_lines (this : DecisionTree) (cout : String.string) :
  exists out,
    DecisionTree_Print this cout = Ok out /\
    line_ends out = (line_ends cout + 1 + 4 * node_count (root_ this))%nat.
Proof.
  unfold DecisionTree_Print. destruct (root_ this) as [| c l r d] eqn:Er.
  - eexists. split; [reflexivity |]. rewrite !line_ends_put. simpl. lia.
  - destruct (Node_Print_lines (Node c l r d) String.EmptyString
                (put (put cout "Decision tree:") endl))
      as (out & Hout & Hlines); [reflexivity | reflexivity |].
    exists out. split; [exact Hout |].
    rewrite Hlines, !line_ends_put. simpl line_ends. lia.
Qed.
